(** * ansi.py: colours, style descriptors and gradients

    A shallow embedding of the colour model ([RGB]), the style descriptor
    ([Ansi]) and the gradient engine ([gradient], [adv_gradient]) of
    [ansi.py], with the properties the documentation states about them,
    and of the text they produce: the escape sequences of a descriptor
    ([Ansi.string], [+], calling a descriptor), [remove_ansi], [to_hex]
    and [to_ansi], with further properties read off the code.  The methods
    of [Terminal] and the functions that print are left out.

    Conventions of the embedding.
    - A Python exception is a value of [exn]; a computation that can raise
      has type [result A], and [x ← e; k] leaves at the first exception.
    - A Python number is an [int] or a [float] ([num]).  A float is held as
      the exact rational it stands for: true division [/] yields the exact
      quotient, [int(x)] truncates it towards zero and [round(x)] rounds it
      to the nearest integer, ties to the even one.  Binary64 rounding of
      the intermediate values is not represented.  For [gradient] this
      loses nothing on channels in 0..255 and fewer than 2^43 steps: the
      section [finite_precision] shows that rounding the quotient and the
      sum leaves the truncated channel as it is; a further property of
      [gradient] or of [RGB.__add__] that depends on the exact values is
      stated for channels in 0..255.  In [adv_gradient] the exact product
      [(i / 100) * steps] can be a tie (7 percent of 150 steps is 10.5) that
      binary64 misses by one unit in the last place; at such inputs Python
      allots one step more or less than [allocation] does.  So the function
      is given a second time, [adv_gradient_by], with the rounding of the
      shares left open: [share_exact] gives [adv_gradient] back, and
      [share_b64] computes the shares in binary64 (the [spec_float] of the
      Standard Library), conversions and [OverflowError] included, as
      Python does.  What is proved of the runs and of the failures of
      [adv_gradient_by] holds for every rounding.
    - A [for] loop that appends to a list is a fold that threads the list.
    - Fields are typed as the source annotates them: a foreground is a name
      or an [RGB], a flag is a boolean, a percentage is an integer.
    - Text is a [string] of characters.  The text of a float is left open
      (a variable [float_repr] of the section [text]).  The substitution
      [re.sub] of [remove_ansi] is a scan from the left that deletes a match
      of the pattern where one starts and keeps the character otherwise. *)

From Stdlib Require Import Ascii.
From Stdlib Require Import ZArith QArith Qround Lia Lqa List Sorted.
From Stdlib Require Import DecimalString Hexadecimal SpecFloat.
From stdpp Require Import base option list gmap strings.
From Equations Require Import Equations.

Open Scope Z_scope.

(** * Python prelude *)

(** ** Exceptions and the error monad *)

Inductive exn : Type :=
| TypeError
| ValueError
| ZeroDivisionError
| KeyError
| IndexError
| OverflowError.

Inductive result (A : Type) : Type :=
| Ok (a : A)
| Err (e : exn).
Arguments Ok {A} a.
Arguments Err {A} e.

#[global] Instance result_ret : MRet result := fun A a => Ok a.
#[global] Instance result_bind : MBind result := fun A B f m =>
  match m with
  | Ok a => f a
  | Err e => Err e
  end.

Tactic Notation "bind_step" := cbn [mbind result_bind].
Tactic Notation "bind_step" "in" hyp(H) := cbn [mbind result_bind] in H.

(** ** Loops and lists *)

(** [for x in xs: s = body(x, s)], leaving at the first exception. *)
Fixpoint for_in {A S : Type} (xs : list A) (body : A -> S -> result S) (s : S)
  : result S :=
  match xs with
  | [] => Ok s
  | x :: xs' => s' ← body x s; for_in xs' body s'
  end.

(** [[f(x) for x in xs]], leaving at the first exception. *)
Fixpoint traverse {A B : Type} (f : A -> result B) (xs : list A) : result (list B) :=
  match xs with
  | [] => Ok []
  | x :: xs' => y ← f x; ys ← traverse f xs'; Ok (y :: ys)
  end.

(** [range(n)]: empty when [n <= 0]. *)
Definition range (n : Z) : list Z := map Z.of_nat (seq 0 (Z.to_nat n)).

(** [enumerate(xs, start)]. *)
Fixpoint enumerate {A : Type} (xs : list A) (start : Z) : list (Z * A) :=
  match xs with
  | [] => []
  | x :: xs' => (start, x) :: enumerate xs' (start + 1)
  end.

(** [l[i]], with Python's negative indices; [IndexError] out of range. *)
Definition py_index {A : Type} (l : list A) (i : Z) : result A :=
  let n := Z.of_nat (length l) in
  let j := if i <? 0 then i + n else i in
  if j <? 0 then Err IndexError
  else match l !! Z.to_nat j with
       | Some x => Ok x
       | None => Err IndexError
       end.

(** [l.pop(i)]: the removed element and the list that remains. *)
Definition py_pop {A : Type} (l : list A) (i : Z) : result (A * list A) :=
  let n := Z.of_nat (length l) in
  let j := if i <? 0 then i + n else i in
  if j <? 0 then Err IndexError
  else match l !! Z.to_nat j with
       | Some x => Ok (x, take (Z.to_nat j) l ++ drop (S (Z.to_nat j)) l)
       | None => Err IndexError
       end.

(** [sum(l)] on integers. *)
Definition py_sum (l : list Z) : Z := fold_left Z.add l 0.

(** [sorted(l, key=key)]: the stable sort, written as insertion from the
    right so that equal keys keep their order. *)
Fixpoint insert_by_key {A : Type} (key : A -> Z) (x : A) (l : list A) : list A :=
  match l with
  | [] => [x]
  | y :: l' => if key x <=? key y then x :: l else y :: insert_by_key key x l'
  end.

Definition py_sorted {A : Type} (key : A -> Z) (l : list A) : list A :=
  fold_right (insert_by_key key) [] l.

(** [d[k]]: [KeyError] when the key is missing. *)
Definition dict_item {V : Type} (d : gmap string V) (k : string) : result V :=
  match d !! k with
  | Some v => Ok v
  | None => Err KeyError
  end.

(** [d.get(k, dflt)] *)
Definition dict_get {V : Type} (d : gmap string V) (k : string) (dflt : V) : V :=
  default dflt (d !! k).

(** ** Numbers *)

Inductive num : Type :=
| PInt (z : Z)
| PFloat (q : Q).

Definition num_val (n : num) : Q :=
  match n with
  | PInt z => inject_Z z
  | PFloat q => q
  end.

Definition num_add (a b : num) : num :=
  match a, b with
  | PInt x, PInt y => PInt (x + y)
  | _, _ => PFloat (num_val a + num_val b)
  end.

Definition num_sub (a b : num) : num :=
  match a, b with
  | PInt x, PInt y => PInt (x - y)
  | _, _ => PFloat (num_val a - num_val b)
  end.

Definition num_mul (a b : num) : num :=
  match a, b with
  | PInt x, PInt y => PInt (x * y)
  | _, _ => PFloat (num_val a * num_val b)
  end.

(** [a / b]: always a float; [ZeroDivisionError] when [b] is zero. *)
Definition num_truediv (a b : num) : result num :=
  if Qeq_bool (num_val b) 0 then Err ZeroDivisionError
  else Ok (PFloat (num_val a / num_val b)).

(** [a == b] on numbers compares values, whatever the two types. *)
Definition num_eqb (a b : num) : bool := Qeq_bool (num_val a) (num_val b).

(** Truncation towards zero. *)
Definition Qtrunc (q : Q) : Z :=
  if Qle_bool 0 q then Qfloor q else Qceiling q.

(** [int(x)]. *)
Definition py_int (n : num) : Z :=
  match n with
  | PInt z => z
  | PFloat q => Qtrunc q
  end.

(** Nearest integer, ties to even. *)
Definition Qround_half_even (q : Q) : Z :=
  let f := Qfloor q in
  match (q - inject_Z f ?= 1 # 2)%Q with
  | Lt => f
  | Gt => f + 1
  | Eq => if Z.even f then f else f + 1
  end.

(** [round(x)] with one argument. *)
Definition py_round (n : num) : Z :=
  match n with
  | PInt z => z
  | PFloat q => Qround_half_even q
  end.

(** * The program *)

(** ** class RGB *)

Record RGB : Type := mkRGB { red : num; green : num; blue : num }.

(** A foreground or background: a colour name or an [RGB] object. *)
Inductive color : Type :=
| Named (name : string)
| Rgb (c : RGB).

(** ** class Ansi: the attributes *)

Record Ansi : Type := mkAnsi {
  fore : color;
  back : color;
  bold : bool;
  dim : bool;
  italic : bool;
  underline : bool;
  strikethrough : bool;
  inverse : bool;
  reset : bool
}.

(** The objects an operator can meet on its right-hand side. *)
Inductive pyobj : Type :=
| ONone
| OBool (b : bool)
| ONum (n : num)
| OStr (s : string)
| ORGB (c : RGB)
| OAnsi (a : Ansi).

Definition is_RGB (o : pyobj) : bool :=
  match o with
  | ORGB _ => true
  | _ => false
  end.

(** What a key of a structural record holds: a string, a flag, or the
    record of an [RGB] (itself a dict from channel name to number). *)
Inductive pyval : Type :=
| VStr (s : string)
| VBool (b : bool)
| VDict (d : gmap string num).

Module RGB.

(** [RGB.__add__], in exact arithmetic: the floats Python computes for
    channels in 0..255, whose sums are halved without rounding
    ([mean_b64_exact]). *)
Definition add (self : RGB) (other : pyobj) : result RGB :=
  match other with
  | ORGB other =>
      new_red ← num_truediv (num_add (red self) (red other)) (PInt 2);
      new_green ← num_truediv (num_add (green self) (green other)) (PInt 2);
      new_blue ← num_truediv (num_add (blue self) (blue other)) (PInt 2);
      Ok (mkRGB new_red new_green new_blue)
  | _ => Err TypeError
  end.

(** The [__eq__] a dataclass generates: the field tuples are compared. *)
Definition eq (self other : RGB) : bool :=
  num_eqb (red self) (red other)
  && num_eqb (green self) (green other)
  && num_eqb (blue self) (blue other).

(** [RGB.to_dict]: the attribute dictionary of the object. *)
Definition to_dict (self : RGB) : gmap string num :=
  <["red" := red self]> (<["green" := green self]> (<["blue" := blue self]> ∅)).

(** [RGB.from_dict] *)
Definition from_dict (data : gmap string num) : result RGB :=
  r ← dict_item data "red";
  g ← dict_item data "green";
  b ← dict_item data "blue";
  Ok (mkRGB r g b).

End RGB.

(** [x == y] on two foregrounds or backgrounds: a string never equals an
    [RGB] object. *)
Definition color_eq (x y : color) : bool :=
  match x, y with
  | Named s, Named t => bool_decide (s = t)
  | Rgb c, Rgb d => RGB.eq c d
  | _, _ => false
  end.

(** ** class Ansi: the methods *)

Module Ansi.

(** [Ansi.__init__]: an argument left out takes its default. *)
Definition init (fore back : option color)
    (bold dim italic underline strikethrough inverse reset : option bool)
  : Ansi :=
  {| fore := default (Named "default") fore;
     back := default (Named "default") back;
     bold := default false bold;
     dim := default false dim;
     italic := default false italic;
     underline := default false underline;
     strikethrough := default false strikethrough;
     inverse := default false inverse;
     reset := default true reset |}.

(** [Ansi.__eq__] on two descriptors. *)
Definition eq (self other : Ansi) : bool :=
  color_eq (fore self) (fore other)
  && color_eq (back self) (back other)
  && eqb (bold self) (bold other)
  && eqb (dim self) (dim other)
  && eqb (italic self) (italic other)
  && eqb (underline self) (underline other)
  && eqb (strikethrough self) (strikethrough other)
  && eqb (inverse self) (inverse other)
  && eqb (reset self) (reset other).

(** [Ansi.__add__], the branch [isinstance(other, Ansi)].  The branch for
    a string operand builds an escape sequence; [Ansi_plus] below has the
    method with all its branches. *)
Definition add (self other : Ansi) : Ansi :=
  init
    (Some (if color_eq (fore self) (Named "default") then fore other else fore self))
    (Some (if color_eq (back self) (Named "default") then back other else back self))
    (Some (bold self || bold other))
    (Some (dim self || dim other))
    (Some (italic self || italic other))
    (Some (underline self || underline other))
    (Some (strikethrough self || strikethrough other))
    (Some (inverse self || inverse other))
    None.

Definition color_to_val (c : color) : pyval :=
  match c with
  | Named s => VStr s
  | Rgb c => VDict (RGB.to_dict c)
  end.

(** [Ansi.to_dict]: the attribute dictionary of a deep copy in which an
    [RGB] foreground or background is replaced by its record. *)
Definition to_dict (self : Ansi) : gmap string pyval :=
  <["fore" := color_to_val (fore self)]>
  (<["back" := color_to_val (back self)]>
  (<["bold" := VBool (bold self)]>
  (<["dim" := VBool (dim self)]>
  (<["italic" := VBool (italic self)]>
  (<["underline" := VBool (underline self)]>
  (<["strikethrough" := VBool (strikethrough self)]>
  (<["inverse" := VBool (inverse self)]>
  (<["reset" := VBool (reset self)]> ∅)))))))).

(** [fore = data.get(...); if not isinstance(fore, str):
    fore = RGB.from_dict(fore)].  Subscripting a value that is not a dict
    is a [TypeError]. *)
Definition color_of_val (v : pyval) : result color :=
  match v with
  | VStr s => Ok (Named s)
  | VDict d => c ← RGB.from_dict d; Ok (Rgb c)
  | VBool _ => Err TypeError
  end.

(** The flags of [Ansi] are booleans here, as [__init__] annotates them.
    Python stores whatever the record holds; a record whose flag is not a
    boolean has no descriptor in this model and is rejected. *)
Definition flag_of_val (v : pyval) : result bool :=
  match v with
  | VBool b => Ok b
  | _ => Err TypeError
  end.

(** [Ansi.from_dict] *)
Definition from_dict (data : gmap string pyval) : result Ansi :=
  fore ← color_of_val (dict_get data "fore" (VStr "default"));
  back ← color_of_val (dict_get data "back" (VStr "default"));
  bold ← flag_of_val (dict_get data "bold" (VBool false));
  dim ← flag_of_val (dict_get data "dim" (VBool false));
  italic ← flag_of_val (dict_get data "italic" (VBool false));
  underline ← flag_of_val (dict_get data "underline" (VBool false));
  strikethrough ← flag_of_val (dict_get data "strikethrough" (VBool false));
  inverse ← flag_of_val (dict_get data "inverse" (VBool false));
  reset ← flag_of_val (dict_get data "reset" (VBool true));
  Ok (init (Some fore) (Some back) (Some bold) (Some dim) (Some italic)
           (Some underline) (Some strikethrough) (Some inverse) (Some reset)).

End Ansi.

(** ** gradient *)

(** [int(c1 + (c2 - c1) * step / (steps - 1))], in exact arithmetic: the
    integer Python computes for channels in 0..255 and fewer than 2^43
    steps ([rounded_channel_exact]). *)
Definition interpolate (c1 c2 : num) (step steps : Z) : result num :=
  q ← num_truediv (num_mul (num_sub c2 c1) (PInt step)) (PInt (steps - 1));
  Ok (PInt (py_int (num_add c1 q))).

Definition gradient (color1 color2 : RGB) (steps : Z) : result (list RGB) :=
  for_in (range steps)
    (fun step gradient_colors =>
       r ← interpolate (red color1) (red color2) step steps;
       g ← interpolate (green color1) (green color2) step steps;
       b ← interpolate (blue color1) (blue color2) step steps;
       Ok (gradient_colors ++ [mkRGB r g b]))
    [].

(** ** adv_gradient *)

(** The loop [for i, steps in enumerate(steps_per)] that adds the gradient
    between each pair of neighbouring stops. *)
Definition add_middle (sorted_cols : list (RGB * Z)) (steps_per : list Z)
    (result0 : list RGB) : result (list RGB) :=
  for_in (enumerate steps_per 0)
    (fun '(i, steps) result =>
       a ← py_index sorted_cols i;
       b ← py_index sorted_cols (i + 1);
       g ← gradient a.1 b.1 steps;
       Ok (result ++ g))
    result0.

(** [for _ in range(n): result.append(sorted_cols[i][0])] *)
Definition add_run (sorted_cols : list (RGB * Z)) (i n : Z)
    (result0 : list RGB) : result (list RGB) :=
  for_in (range n)
    (fun _ result => c ← py_index sorted_cols i; Ok (result ++ [c.1]))
    result0.

(** The two tests [if not sorted_cols[-1][1] == 100] guard the removal of
    the last allocation before the middle loop and its use after it; the
    list they read is never changed in between, so they are one branch
    here, which also keeps [last] bound exactly where Python binds it.
    The shares [round((i / sum(perc)) * steps)] are rounded in exact
    arithmetic here; [adv_gradient_by] below is the function with their
    rounding left open, and so with the rounding of Python. *)
Definition adv_gradient (colors : list (RGB * Z)) (steps : Z)
  : result (list RGB) :=
  let sorted_cols := py_sorted snd colors in
  (* Adding percentages marks *)
  first ← py_index sorted_cols 0;
  let col_arr_perc := if negb (first.2 =? 0) then [0] else [] in
  let col_arr_perc := col_arr_perc ++ map snd sorted_cols in
  last_col ← py_index sorted_cols (-1);
  let col_arr_perc :=
    if negb (last_col.2 =? 100) then col_arr_perc ++ [100] else col_arr_perc in
  (* Calculate percentage for each color *)
  perc ← for_in (enumerate (drop 1 col_arr_perc) 1)
           (fun '(i, n) perc =>
              prev ← py_index col_arr_perc (i - 1);
              Ok (perc ++ [n - prev]))
           [];
  (* Calculate amount of steps for each color *)
  steps_per ← for_in perc
                (fun i steps_per =>
                   f ← num_truediv (PInt i) (PInt (py_sum perc));
                   Ok (steps_per ++ [py_round (num_mul f (PInt steps))]))
                [];
  (* Create gradient based on its percentage *)
  '(result, steps_per) ←
    (if negb (first.2 =? 0) then
       n ← py_index steps_per 0;
       result ← add_run sorted_cols 0 n [];
       '(_, steps_per) ← py_pop steps_per 0;
       Ok (result, steps_per)
     else Ok ([], steps_per));
  if negb (last_col.2 =? 100) then
    '(last, steps_per) ← py_pop steps_per (-1);
    result ← add_middle sorted_cols steps_per result;
    let steps_per := steps_per ++ [last] in
    n ← py_index steps_per (-1);
    add_run sorted_cols (-1) n result
  else
    add_middle sorted_cols steps_per result.

(** * Definitions for the statements *)

(** A colour whose three channels are integers. *)
Definition rgb (r g b : Z) : RGB := mkRGB (PInt r) (PInt g) (PInt b).

(** The sample the documentation describes for one channel:
    [a + (b - a) * i / (steps - 1)], truncated to an integer. *)
Definition sample_channel (a b i steps : Z) : Z :=
  Qtrunc (inject_Z a + (inject_Z b - inject_Z a) * inject_Z i / inject_Z (steps - 1)).

(** [int(c1 + (c2 - c1) * step / (steps - 1))] on integer channels when the
    quotient and the sum are each rounded by [fl]. *)
Definition rounded_channel (fl : Q -> Q) (a b i steps : Z) : Z :=
  Qtrunc (fl (inject_Z a + fl (inject_Z ((b - a) * i) / inject_Z (steps - 1)))%Q).

(** One sample of [gradient]: the body of its loop without the append. *)
Definition sample (color1 color2 : RGB) (steps step : Z) : result RGB :=
  r ← interpolate (red color1) (red color2) step steps;
  g ← interpolate (green color1) (green color2) step steps;
  b ← interpolate (blue color1) (blue color2) step steps;
  Ok (mkRGB r g b).

(** The differences between neighbours of a list of marks. *)
Fixpoint diffs (l : list Z) : list Z :=
  match l with
  | x :: (y :: _) as l' => (y - x) :: diffs l'
  | _ => []
  end.

(** The steps allocated to a span of [d] percent:
    [round(span_fraction * steps)], in exact arithmetic; [share_b64] below
    is the same with the rounding of Python. *)
Definition allocation (steps d : Z) : Z :=
  Qround_half_even (inject_Z d / inject_Z 100 * inject_Z steps).

(** The gradients between each pair of neighbouring stops, concatenated. *)
Fixpoint between (steps : Z) (stops : list (RGB * Z)) : result (list RGB) :=
  match stops with
  | a :: (b :: _) as stops' =>
      g ← gradient a.1 b.1 (allocation steps (b.2 - a.2));
      rest ← between steps stops';
      Ok (g ++ rest)
  | _ => Ok []
  end.

(** The run held at the first colour before a first stop that is not at 0,
    and the run held at the last colour after a last stop that is not at
    100. *)
Definition leading_run (steps : Z) (first : RGB * Z) : list RGB :=
  if first.2 =? 0 then []
  else replicate (Z.to_nat (allocation steps (first.2 - 0))) first.1.

Definition trailing_run (steps : Z) (last_col : RGB * Z) : list RGB :=
  if last_col.2 =? 100 then []
  else replicate (Z.to_nat (allocation steps (100 - last_col.2))) last_col.1.

(** The percentage marks [col_arr_perc] of stops in order. *)
Definition marks (sorted_cols : list (RGB * Z)) : list Z :=
  match sorted_cols with
  | [] => []
  | s0 :: rest =>
      (if s0.2 =? 0 then [] else [0])
      ++ map snd sorted_cols
      ++ (if (List.last rest s0).2 =? 100 then [] else [100])
  end.

(** The number of segments: the pairs of neighbouring marks. *)
Definition segments (colors : list (RGB * Z)) : nat :=
  length (diffs (marks (py_sorted snd colors))).

(** The colours a list of spans receives in all: a span whose allocation
    is negative receives none. *)
Definition run_total (steps : Z) (spans : list Z) : Z :=
  py_sum (map (fun d => Z.of_nat (Z.to_nat (allocation steps d))) spans).

(** * More of the program: text *)

(** ** Formatting numbers *)

(** [str(n)] for an integer: decimal digits, with a sign when negative. *)
Definition int_str (z : Z) : string :=
  DecimalString.NilZero.string_of_int (Z.to_int z).

(** The digits of format code [X]: hexadecimal, upper case. *)
Fixpoint hex_upper (u : Hexadecimal.uint) : string :=
  match u with
  | Hexadecimal.Nil => EmptyString
  | Hexadecimal.D0 u => String "0"%char (hex_upper u)
  | Hexadecimal.D1 u => String "1"%char (hex_upper u)
  | Hexadecimal.D2 u => String "2"%char (hex_upper u)
  | Hexadecimal.D3 u => String "3"%char (hex_upper u)
  | Hexadecimal.D4 u => String "4"%char (hex_upper u)
  | Hexadecimal.D5 u => String "5"%char (hex_upper u)
  | Hexadecimal.D6 u => String "6"%char (hex_upper u)
  | Hexadecimal.D7 u => String "7"%char (hex_upper u)
  | Hexadecimal.D8 u => String "8"%char (hex_upper u)
  | Hexadecimal.D9 u => String "9"%char (hex_upper u)
  | Hexadecimal.Da u => String "A"%char (hex_upper u)
  | Hexadecimal.Db u => String "B"%char (hex_upper u)
  | Hexadecimal.Dc u => String "C"%char (hex_upper u)
  | Hexadecimal.Dd u => String "D"%char (hex_upper u)
  | Hexadecimal.De u => String "E"%char (hex_upper u)
  | Hexadecimal.Df u => String "F"%char (hex_upper u)
  end.

(** ["{:02X}".format(x)]: an integer is written in upper-case hexadecimal,
    sign first, filled with zeros to two characters; a float has no format
    code [X] and raises [ValueError]. *)
Definition format_02X (x : num) : result string :=
  match x with
  | PInt z =>
      let digits := hex_upper (N.to_hex_uint (Z.abs_N z)) in
      if z <? 0 then Ok (String "-"%char digits)
      else if (String.length digits <? 2)%nat then Ok (String "0"%char digits)
      else Ok digits
  | PFloat _ => Err ValueError
  end.

(** [RGB.to_hex] *)
Definition to_hex (self : RGB) : result string :=
  r ← format_02X (red self);
  g ← format_02X (green self);
  b ← format_02X (blue self);
  Ok ("#" +:+ r +:+ g +:+ b).

(** The colour codes [_ansi_codes]. *)
Definition _ansi_codes : gmap string Z :=
  list_to_map
    [("default", 39);
     ("black", 30); ("bright_black", 90);
     ("red", 31); ("bright_red", 91);
     ("green", 32); ("bright_green", 92);
     ("yellow", 33); ("bright_yellow", 93);
     ("blue", 34); ("bright_blue", 94);
     ("magenta", 35); ("bright_magenta", 95);
     ("cyan", 36); ("bright_cyan", 96);
     ("white", 37); ("bright_white", 97)].

(** The escape character [\033]. *)
Definition ESC : ascii := "027"%char.

(** The sequence [\033[39;49;0m] that resets colours and attributes. *)
Definition reset_all : string := String ESC "[39;49;0m".

Section text.

(** [repr] of a float: the shortest decimal string that reads back as the
    same binary64 number.  The rational that stands for a float here does
    not determine it, so it is left open. *)
Variable float_repr : Q -> string.

(** [f"{x}"] for a number. *)
Definition num_str (x : num) : string :=
  match x with
  | PInt z => int_str z
  | PFloat q => float_repr q
  end.

(** The property [Ansi.string]. *)
Definition Ansi_string (self : Ansi) : result string :=
  fg ← match fore self with
       | Named name =>
           code ← dict_item _ansi_codes name;
           Ok (String ESC "[" +:+ int_str code +:+ "m")
       | Rgb c =>
           Ok (String ESC "[38;2;" +:+ num_str (red c) +:+ ";" +:+ num_str (green c)
               +:+ ";" +:+ num_str (blue c) +:+ "m")
       end;
  bg ← match back self with
       | Named name =>
           code ← dict_item _ansi_codes name;
           Ok (String ESC "[" +:+ int_str (code + 10) +:+ "m")
       | Rgb c =>
           Ok (String ESC "[48;2;" +:+ num_str (red c) +:+ ";" +:+ num_str (green c)
               +:+ ";" +:+ num_str (blue c) +:+ "m")
       end;
  let b := if bold self then ";1" else EmptyString in
  let d := if dim self then ";2" else EmptyString in
  let i := if italic self then ";3" else EmptyString in
  let u := if underline self then ";4" else EmptyString in
  let s := if strikethrough self then ";9" else EmptyString in
  let inv := if inverse self then ";7" else EmptyString in
  let styles :=
    if existsb (fun x => negb (String.eqb x EmptyString)) [b; d; i; u; s; inv]
    then String ESC "[0" +:+ b +:+ i +:+ u +:+ s +:+ d +:+ inv +:+ "m"
    else String ESC "[0m" in
  Ok (styles +:+ fg +:+ bg).

(** [str(x)] on the objects of the model: [RGB.__str__] is [to_hex] and
    [Ansi.__str__] is the property [string]. *)
Definition py_str (x : pyobj) : result string :=
  match x with
  | ONone => Ok "None"
  | OBool b => Ok (if b then "True" else "False")
  | ONum n => Ok (num_str n)
  | OStr s => Ok s
  | ORGB c => to_hex c
  | OAnsi a => Ansi_string a
  end.

(** [Ansi.__add__] with its three branches; the branch for a descriptor is
    [Ansi.add]. *)
Definition Ansi_plus (self : Ansi) (other : pyobj) : result pyobj :=
  match other with
  | OStr other =>
      s ← Ansi_string self;
      Ok (OStr (reset_all +:+ s +:+ other +:+ (if reset self then reset_all else EmptyString)))
  | OAnsi other => Ok (OAnsi (Ansi.add self other))
  | _ => Err TypeError
  end.

(** [Ansi.__radd__] *)
Definition Ansi_radd (self : Ansi) (other : pyobj) : result string :=
  match other with
  | OStr other => s ← Ansi_string self; Ok (other +:+ reset_all +:+ s)
  | _ => Err TypeError
  end.

(** [Ansi.__call__] *)
Definition Ansi_call (self : Ansi) (values : list pyobj) (sep : string)
  : result string :=
  val ← traverse py_str values;
  let value := String.concat sep val in
  s ← Ansi_string self;
  Ok (s +:+ value +:+ reset_all).

End text.

(** ** The setters *)

(** Each setter copies the descriptor and assigns one attribute of the
    copy. *)
Definition set_fore (self : Ansi) (fore : color) : Ansi :=
  mkAnsi fore (back self) (bold self) (dim self) (italic self) (underline self)
         (strikethrough self) (inverse self) (reset self).

Definition set_back (self : Ansi) (back : color) : Ansi :=
  mkAnsi (fore self) back (bold self) (dim self) (italic self) (underline self)
         (strikethrough self) (inverse self) (reset self).

Definition set_bold (self : Ansi) (bold : bool) : Ansi :=
  mkAnsi (fore self) (back self) bold (dim self) (italic self) (underline self)
         (strikethrough self) (inverse self) (reset self).

Definition set_dim (self : Ansi) (dim : bool) : Ansi :=
  mkAnsi (fore self) (back self) (bold self) dim (italic self) (underline self)
         (strikethrough self) (inverse self) (reset self).

Definition set_italic (self : Ansi) (italic : bool) : Ansi :=
  mkAnsi (fore self) (back self) (bold self) (dim self) italic (underline self)
         (strikethrough self) (inverse self) (reset self).

Definition set_underline (self : Ansi) (underline : bool) : Ansi :=
  mkAnsi (fore self) (back self) (bold self) (dim self) (italic self) underline
         (strikethrough self) (inverse self) (reset self).

Definition set_strikethrough (self : Ansi) (strikethrough : bool) : Ansi :=
  mkAnsi (fore self) (back self) (bold self) (dim self) (italic self) (underline self)
         strikethrough (inverse self) (reset self).

Definition set_inverse (self : Ansi) (inverse : bool) : Ansi :=
  mkAnsi (fore self) (back self) (bold self) (dim self) (italic self) (underline self)
         (strikethrough self) inverse (reset self).

(** ** remove_ansi *)

(** A character of the class [[0-9;]]. *)
Definition is_param (c : ascii) : bool :=
  let n := nat_of_ascii c in
  ((48 <=? n)%nat && (n <=? 57)%nat) || Ascii.eqb c ";"%char.

(** [[0-9;]+m] at the head of [s]: what follows the match.  [seen] tells
    whether a character of the class has been passed. *)
Fixpoint scan_params (seen : bool) (s : string) : option string :=
  match s with
  | EmptyString => None
  | String c s' =>
      if is_param c then scan_params true s'
      else if seen && Ascii.eqb c "m"%char then Some s'
      else None
  end.

(** [\033\[[0-9;]+m] at the head of [s]: what follows the match. *)
Definition match_at (s : string) : option string :=
  match s with
  | String e (String b s') =>
      if Ascii.eqb e ESC && Ascii.eqb b "["%char then scan_params false s' else None
  | _ => None
  end.

(** The equation that tells which case of a test was taken. *)
Definition inspect {A : Type} (a : A) : {b : A | a = b} := exist _ a eq_refl.

(** [remove_ansi]: [re.sub] deletes the matches found from left to right, a
    search resuming where the match before it ended. *)
Equations? remove_ansi (input_string : string) : string
  by wf (String.length input_string) lt :=
  remove_ansi EmptyString := EmptyString;
  remove_ansi (String c s) with inspect (match_at (String c s)) => {
    | exist _ (Some rest) Hm := remove_ansi rest;
    | exist _ None _ := String c (remove_ansi s) }.
Proof.
  assert (forall seen t, scan_params seen t = Some rest ->
            (String.length rest < String.length t)%nat) as Hscan.
  { intros seen t. revert seen. induction t as [|a t IH]; intros seen; simpl;
      [discriminate|].
    destruct (is_param a).
    - intros H%IH. lia.
    - destruct (seen && Ascii.eqb a "m"%char); [|discriminate]. intros [= ->]. lia. }
  destruct s as [|b s]; simpl in Hm; [discriminate|].
  destruct (Ascii.eqb c ESC && Ascii.eqb b "["%char); [|discriminate].
  apply Hscan in Hm. simpl. lia.
Qed.


(** ** to_ansi *)

(** A target that is neither ["fore"] nor ["back"] raises; otherwise the
    loop makes one descriptor for each colour, and the list is returned. *)
Definition to_ansi (colors : list RGB) (target : string) : result (list Ansi) :=
  if negb (bool_decide (target ∈ ["fore"; "back"])) then Err ValueError
  else
    for_in colors
      (fun color result =>
         if String.eqb target "fore"
         then Ok (result ++ [Ansi.init (Some (Rgb color)) None None None None
                                       None None None None])
         else Ok (result ++ [Ansi.init None (Some (Rgb color)) None None None
                                       None None None None]))
      [].

(** * More of the program: the rounding of the code *)

(** ** Binary64 numbers *)

(** A Python [float] is an IEEE 754 binary64 number: a [spec_float] with
    53 bits of precision and exponents below 1024, and operations that
    round to the nearest number, ties to the even one. *)

(** [float(z)] on an integer, as the arithmetic converts an operand:
    correctly rounded; [OverflowError] when the integer is too large. *)
Definition float_of_int (z : Z) : result spec_float :=
  match binary_normalize 53 1024 z 0 false with
  | S754_infinity _ => Err OverflowError
  | x => Ok x
  end.

(** [a / b] on two integers: the quotient of the integers, correctly
    rounded; [ZeroDivisionError] when [b] is zero and [OverflowError] when
    the quotient is too large. *)
Definition int_truediv (a b : Z) : result spec_float :=
  match a, b with
  | _, Z0 => Err ZeroDivisionError
  | Z0, Zpos _ => Ok (S754_zero false)
  | Z0, Zneg _ => Ok (S754_zero true)
  | _, _ =>
      match SFdiv 53 1024 (S754_finite (a <? 0) (Z.to_pos (Z.abs a)) 0)
                          (S754_finite (b <? 0) (Z.to_pos (Z.abs b)) 0) with
      | S754_infinity _ => Err OverflowError
      | x => Ok x
      end
  end.

(** [x * z] on a float and an integer: the integer is converted, and the
    product is rounded; a product that is too large is an infinity. *)
Definition float_mul_int (x : spec_float) (z : Z) : result spec_float :=
  y ← float_of_int z;
  Ok (SFmul 53 1024 x y).

(** The rational a finite float stands for. *)
Definition float_val (s : bool) (m : positive) (e : Z) : Q :=
  let v := match e with
           | Zneg p => Z.pos m # Pos.pow 2 p
           | _ => inject_Z (Z.pos m * 2 ^ e)
           end in
  if s then (- v)%Q else v.

(** [round(x)] on a float: the nearest integer, ties to the even one;
    [OverflowError] on an infinity and [ValueError] on a NaN. *)
Definition float_round (x : spec_float) : result Z :=
  match x with
  | S754_zero _ => Ok 0
  | S754_finite s m e => Ok (Qround_half_even (float_val s m e))
  | S754_infinity _ => Err OverflowError
  | S754_nan => Err ValueError
  end.

(** [round((i / total) * steps)] as Python computes it. *)
Definition share_b64 (i total steps : Z) : result Z :=
  f ← int_truediv i total;
  p ← float_mul_int f steps;
  float_round p.

(** The same expression in exact arithmetic, as [adv_gradient] above has
    it. *)
Definition share_exact (i total steps : Z) : result Z :=
  f ← num_truediv (PInt i) (PInt total);
  Ok (py_round (num_mul f (PInt steps))).

(** ** adv_gradient, the rounding left open *)

(** [adv_gradient] with [share i total steps] in the place of
    [round((i / total) * steps)], the one expression of its own that
    computes with floats; all the rest is as above, the calls of [gradient]
    included.  With [share_b64] the runs and the step counts of the
    gradients are those of Python. *)
Definition adv_gradient_by (share : Z -> Z -> Z -> result Z)
    (colors : list (RGB * Z)) (steps : Z) : result (list RGB) :=
  let sorted_cols := py_sorted snd colors in
  (* Adding percentages marks *)
  first ← py_index sorted_cols 0;
  let col_arr_perc := if negb (first.2 =? 0) then [0] else [] in
  let col_arr_perc := col_arr_perc ++ map snd sorted_cols in
  last_col ← py_index sorted_cols (-1);
  let col_arr_perc :=
    if negb (last_col.2 =? 100) then col_arr_perc ++ [100] else col_arr_perc in
  (* Calculate percentage for each color *)
  perc ← for_in (enumerate (drop 1 col_arr_perc) 1)
           (fun '(i, n) perc =>
              prev ← py_index col_arr_perc (i - 1);
              Ok (perc ++ [n - prev]))
           [];
  (* Calculate amount of steps for each color *)
  steps_per ← for_in perc
                (fun i steps_per =>
                   n ← share i (py_sum perc) steps;
                   Ok (steps_per ++ [n]))
                [];
  (* Create gradient based on its percentage *)
  '(result, steps_per) ←
    (if negb (first.2 =? 0) then
       n ← py_index steps_per 0;
       result ← add_run sorted_cols 0 n [];
       '(_, steps_per) ← py_pop steps_per 0;
       Ok (result, steps_per)
     else Ok ([], steps_per));
  if negb (last_col.2 =? 100) then
    '(last, steps_per) ← py_pop steps_per (-1);
    result ← add_middle sorted_cols steps_per result;
    let steps_per := steps_per ++ [last] in
    n ← py_index steps_per (-1);
    add_run sorted_cols (-1) n result
  else
    add_middle sorted_cols steps_per result.

(** * More definitions for the statements *)

(** No escape character in the string. *)
Fixpoint no_esc (s : string) : bool :=
  match s with
  | EmptyString => true
  | String c s' => negb (Ascii.eqb c ESC) && no_esc s'
  end.

(** Every character is of the class [[0-9;]]. *)
Fixpoint all_params (s : string) : bool :=
  match s with
  | EmptyString => true
  | String c s' => is_param c && all_params s'
  end.

(** A colour [Ansi.string] can look up: a name of [_ansi_codes], or an
    [RGB]. *)
Definition known (c : color) : Prop :=
  match c with
  | Named name => is_Some (_ansi_codes !! name)
  | Rgb _ => True
  end.

(** A colour whose escape sequence holds digits and semicolons only: a name
    of [_ansi_codes], or an [RGB] whose channels are integers that are not
    negative. *)
Definition plain (c : color) : Prop :=
  match c with
  | Named name => is_Some (_ansi_codes !! name)
  | Rgb c => exists r g b : Z, c = rgb r g b /\ 0 <= r /\ 0 <= g /\ 0 <= b
  end.

(** A colour with 8-bit channels. *)
Definition rgb8 (c : RGB) : Prop :=
  exists r g b : Z, c = rgb r g b /\ 0 <= r <= 255 /\ 0 <= g <= 255 /\ 0 <= b <= 255.

(** A channel that is an integer. *)
Definition is_int (x : num) : bool :=
  match x with
  | PInt _ => true
  | PFloat _ => false
  end.

(** The value of an upper-case hexadecimal digit. *)
Definition hex_digit_value (c : ascii) : option Z :=
  let n := Z.of_nat (nat_of_ascii c) in
  if (48 <=? n) && (n <=? 57) then Some (n - 48)
  else if (65 <=? n) && (n <=? 70) then Some (n - 55)
  else None.

(** The value of two hexadecimal digits. *)
Definition hex2_value (s : string) : option Z :=
  match s with
  | String h (String l EmptyString) =>
      match hex_digit_value h, hex_digit_value l with
      | Some x, Some y => Some (16 * x + y)
      | _, _ => None
      end
  | _ => None
  end.

(** [Ansi()], the descriptor with every default. *)
Definition Ansi_default : Ansi :=
  Ansi.init None None None None None None None None None.

(** The float that was computed is the rational [q]. *)
Definition float_is (x : result spec_float) (q : Q) : bool :=
  match x with
  | Ok (S754_zero _) => Qeq_bool q 0
  | Ok (S754_finite s m e) => Qeq_bool (float_val s m e) q
  | _ => false
  end.

(** The steps Python allots to a span of [d] percent of [steps], the
    marks spanning 100 percent: what [share] returns, and 0 where it
    raises. *)
Definition allotted (share : Z -> Z -> Z -> result Z) (steps d : Z) : Z :=
  match share d 100 steps with
  | Ok n => n
  | Err _ => 0
  end.

(** The shares of a list of spans, computed in order. *)
Definition shares (share : Z -> Z -> Z -> result Z) (steps : Z) (spans : list Z)
  : result (list Z) :=
  traverse (fun d => share d 100 steps) spans.

(** [between], [leading_run] and [trailing_run] when a span of [d] percent
    is allotted [alloc d] steps. *)
Fixpoint between_by (alloc : Z -> Z) (stops : list (RGB * Z)) : result (list RGB) :=
  match stops with
  | a :: (b :: _) as stops' =>
      g ← gradient a.1 b.1 (alloc (b.2 - a.2));
      rest ← between_by alloc stops';
      Ok (g ++ rest)
  | _ => Ok []
  end.

Definition leading_run_by (alloc : Z -> Z) (first : RGB * Z) : list RGB :=
  if first.2 =? 0 then []
  else replicate (Z.to_nat (alloc (first.2 - 0))) first.1.

Definition trailing_run_by (alloc : Z -> Z) (last_col : RGB * Z) : list RGB :=
  if last_col.2 =? 100 then []
  else replicate (Z.to_nat (alloc (100 - last_col.2))) last_col.1.

(** * Properties *)

(** ** Loops *)

Lemma bind_ok_r {A : Type} (m : result A) : (x ← m; Ok x) = m.
Proof. by destruct m. Qed.

Lemma for_in_ext {A S : Type} (xs : list A) (f g : A -> S -> result S) (s : S) :
  (forall x s, f x s = g x s) -> for_in xs f s = for_in xs g s.
Proof.
  intros Hfg. revert s. induction xs as [|x xs IH]; intros s; simpl; [reflexivity|].
  rewrite Hfg. destruct (g x s); simpl; auto.
Qed.

(** A loop that appends one computed element per round builds the list of
    the computed elements behind what was there. *)
Lemma for_in_append {A B : Type} (f : A -> result B) (xs : list A) (acc : list B) :
  for_in xs (fun x acc => y ← f x; Ok (acc ++ [y])) acc
  = ys ← traverse f xs; Ok (acc ++ ys).
Proof.
  revert acc. induction xs as [|x xs IH]; intros acc; simpl.
  - by rewrite app_nil_r.
  - destruct (f x) as [y|e]; simpl; [|reflexivity].
    rewrite IH. destruct (traverse f xs) as [ys|e]; simpl; [|reflexivity].
    by rewrite <- app_assoc.
Qed.

Lemma traverse_ok {A B : Type} (f : A -> result B) (g : A -> B) (xs : list A) :
  (forall x, x ∈ xs -> f x = Ok (g x)) -> traverse f xs = Ok (map g xs).
Proof.
  induction xs as [|x xs IH]; intros H; simpl; [reflexivity|].
  rewrite H by apply list_elem_of_here. simpl.
  rewrite IH; [reflexivity|]. intros y Hy. apply H. by apply list_elem_of_further.
Qed.

Lemma traverse_total {A B : Type} (f : A -> result B) (xs : list A) :
  (forall x, x ∈ xs -> exists y, f x = Ok y) -> exists ys, traverse f xs = Ok ys.
Proof.
  induction xs as [|x xs IH]; intros H; simpl; [by eauto|].
  destruct (H x) as [y ->]; [apply list_elem_of_here|].
  destruct IH as [ys ->]; [|simpl; by eauto].
  intros z Hz. apply H. by apply list_elem_of_further.
Qed.

Lemma traverse_length {A B : Type} (f : A -> result B) (xs : list A) (ys : list B) :
  traverse f xs = Ok ys -> length ys = length xs.
Proof.
  revert ys. induction xs as [|x xs IH]; intros ys; simpl.
  - intros [= <-]. reflexivity.
  - destruct (f x) as [y|e]; simpl; [|discriminate].
    destruct (traverse f xs) as [zs|e]; simpl; [|discriminate].
    intros [= <-]. simpl. f_equal. by apply IH.
Qed.

Lemma range_length (n : Z) : length (range n) = Z.to_nat n.
Proof. unfold range. by rewrite length_map, length_seq. Qed.

Lemma range_lookup (n i : Z) :
  0 <= i < n -> range n !! Z.to_nat i = Some i.
Proof.
  intros Hi. unfold range. rewrite list_lookup_fmap.
  rewrite lookup_seq_lt by lia. simpl. f_equal. lia.
Qed.

Lemma range_nonpos (n : Z) : n <= 0 -> range n = [].
Proof. intros Hn. unfold range. by replace (Z.to_nat n) with 0%nat by lia. Qed.

(** ** Lists *)

Lemma py_index_0 {A : Type} (x : A) (l : list A) : py_index (x :: l) 0 = Ok x.
Proof. reflexivity. Qed.

Lemma py_index_middle {A : Type} (pre : list A) (x : A) (l : list A) :
  py_index (pre ++ x :: l) (Z.of_nat (length pre)) = Ok x.
Proof.
  unfold py_index.
  destruct (Z.ltb_spec (Z.of_nat (length pre)) 0) as [|_]; [lia|].
  destruct (Z.ltb_spec (Z.of_nat (length pre)) 0) as [|_]; [lia|].
  rewrite Nat2Z.id. by rewrite list_lookup_middle.
Qed.

Lemma py_index_last {A : Type} (l : list A) (x : A) : py_index (l ++ [x]) (-1) = Ok x.
Proof.
  unfold py_index. rewrite length_app. simpl.
  destruct (Z.ltb_spec (-1 + Z.of_nat (length l + 1)) 0) as [|_]; [lia|].
  replace (Z.to_nat (-1 + Z.of_nat (length l + 1))) with (length l) by lia.
  by rewrite list_lookup_middle.
Qed.

Lemma py_pop_0 {A : Type} (x : A) (l : list A) : py_pop (x :: l) 0 = Ok (x, l).
Proof. unfold py_pop. simpl. by rewrite drop_0. Qed.

Lemma py_pop_last {A : Type} (l : list A) (x : A) : py_pop (l ++ [x]) (-1) = Ok (x, l).
Proof.
  unfold py_pop. rewrite length_app. simpl.
  destruct (Z.ltb_spec (-1 + Z.of_nat (length l + 1)) 0) as [|_]; [lia|].
  replace (Z.to_nat (-1 + Z.of_nat (length l + 1))) with (length l) by lia.
  rewrite list_lookup_middle by reflexivity.
  rewrite take_app_length.
  rewrite drop_app_ge by lia.
  replace (S (length l) - length l)%nat with 1%nat by lia. simpl.
  by rewrite app_nil_r.
Qed.

Lemma last_cons_default {A : Type} (x y : A) (l : list A) :
  List.last (y :: l) x = List.last l y.
Proof.
  revert x y. induction l as [|z l IH]; intros x y; [reflexivity|].
  change (List.last (y :: z :: l) x) with (List.last (z :: l) x).
  by rewrite (IH x z), (IH y z).
Qed.

Lemma last_map_snd {A : Type} (x : A * Z) (l : list (A * Z)) :
  List.last (map snd l) x.2 = (List.last l x).2.
Proof.
  revert x. induction l as [|y l IH]; intros x; [reflexivity|].
  change (map snd (y :: l)) with (y.2 :: map snd l).
  rewrite !last_cons_default. apply IH.
Qed.

Lemma cons_snoc {A : Type} (x : A) (l : list A) :
  exists l', x :: l = l' ++ [List.last l x].
Proof.
  revert x. induction l as [|y l IH]; intros x.
  - by exists [].
  - destruct (IH y) as [l' Hl']. exists (x :: l').
    rewrite last_cons_default. simpl. by rewrite <- Hl'.
Qed.

Lemma last_elem_of {A : Type} (x : A) (l : list A) : List.last l x ∈ x :: l.
Proof.
  destruct (cons_snoc x l) as [l' Heq]. rewrite Heq.
  apply elem_of_app. right. apply list_elem_of_here.
Qed.

Lemma py_index_neg1 {A : Type} (x : A) (l : list A) :
  py_index (x :: l) (-1) = Ok (List.last l x).
Proof. destruct (cons_snoc x l) as [l' ->]. apply py_index_last. Qed.

Lemma fold_left_add (l : list Z) (a : Z) : fold_left Z.add l a = a + py_sum l.
Proof.
  unfold py_sum. revert a. induction l as [|x l IH]; intros a; simpl; [lia|].
  rewrite IH, (IH (0 + x)). lia.
Qed.

Lemma py_sum_cons (x : Z) (l : list Z) : py_sum (x :: l) = x + py_sum l.
Proof. unfold py_sum at 1. simpl. apply fold_left_add. Qed.

Lemma py_sum_app (l1 l2 : list Z) : py_sum (l1 ++ l2) = py_sum l1 + py_sum l2.
Proof.
  induction l1 as [|x l1 IH]; simpl; [reflexivity|].
  rewrite !py_sum_cons, IH. lia.
Qed.

(** ** Sorting *)

Section sorting.
Context {A : Type} (key : A -> Z).

(** In order of the key. *)
Local Abbreviation ordered := (Sorted (fun a b => key a <= key b)).

Lemma insert_by_key_perm (x : A) (l : list A) :
  insert_by_key key x l ≡ₚ x :: l.
Proof.
  induction l as [|y l IH]; simpl; [reflexivity|].
  destruct (key x <=? key y); [reflexivity|].
  rewrite IH. apply Permutation_swap.
Qed.

Lemma py_sorted_perm (l : list A) : py_sorted key l ≡ₚ l.
Proof.
  induction l as [|x l IH]; simpl; [reflexivity|].
  by rewrite insert_by_key_perm, IH.
Qed.

Lemma insert_by_key_sorted (x : A) (l : list A) :
  ordered l ->
  ordered (insert_by_key key x l).
Proof.
  induction 1 as [|y l Hl IH Hhd]; simpl.
  - by repeat constructor.
  - destruct (Z.leb_spec (key x) (key y)) as [Hle|Hgt].
    + constructor; [by constructor | by constructor].
    + constructor; [exact IH|].
      destruct l as [|z l]; simpl.
      * constructor. lia.
      * destruct (key x <=? key z); constructor; [lia|].
        by inversion Hhd.
Qed.

Lemma py_sorted_sorted (l : list A) :
  ordered (py_sorted key l).
Proof.
  induction l as [|x l IH]; simpl; [constructor|].
  by apply insert_by_key_sorted.
Qed.


(** Stability: among the elements with one key, the order is kept. *)
Lemma insert_by_key_filter (k : Z) (x : A) (l : list A) :
  ordered l ->
  filter (fun a => key a = k) (insert_by_key key x l)
  = filter (fun a => key a = k) (x :: l).
Proof.
  induction 1 as [|y l Hl IH Hhd]; simpl; [reflexivity|].
  destruct (Z.leb_spec (key x) (key y)) as [Hle|Hgt]; [reflexivity|].
  rewrite !filter_cons in *. rewrite IH.
  destruct (decide (key y = k)) as [Hy|Hy], (decide (key x = k)) as [Hx|Hx];
    try reflexivity.
  lia.
Qed.

Lemma py_sorted_stable (k : Z) (l : list A) :
  filter (fun a => key a = k) (py_sorted key l) = filter (fun a => key a = k) l.
Proof.
  induction l as [|x l IH]; simpl; [reflexivity|].
  rewrite insert_by_key_filter by apply py_sorted_sorted.
  rewrite !filter_cons, IH. reflexivity.
Qed.

Lemma py_sorted_nonempty (l : list A) :
  l <> [] -> exists s0 rest, py_sorted key l = s0 :: rest.
Proof.
  intros Hl. destruct (py_sorted key l) as [|s0 rest] eqn:Hs; [|by eauto].
  pose proof (py_sorted_perm l) as Hp. rewrite Hs in Hp.
  apply Permutation_nil_l in Hp. congruence.
Qed.

End sorting.

(** ** Numbers *)

Lemma Qtrunc_comp (p q : Q) : p == q -> Qtrunc p = Qtrunc q.
Proof.
  intros Hpq. unfold Qtrunc.
  assert (Qle_bool 0 p = Qle_bool 0 q) as ->.
  { apply eq_true_iff_eq. rewrite !Qle_bool_iff. by rewrite Hpq. }
  destruct (Qle_bool 0 q); [by apply Qfloor_comp | by apply Qceiling_comp].
Qed.

Lemma Qtrunc_Z (z : Z) : Qtrunc (inject_Z z) = z.
Proof. unfold Qtrunc. destruct (Qle_bool 0 (inject_Z z)); [apply Qfloor_Z | apply Qceiling_Z]. Qed.

(** Truncation is the quotient that rounds towards zero. *)
Lemma Qtrunc_quot (n : Z) (d : positive) : Qtrunc (n # d) = Z.quot n (Z.pos d).
Proof.
  unfold Qtrunc. destruct (Qle_bool 0 (n # d)) eqn:Hs.
  - apply Qle_bool_iff in Hs. unfold Qle in Hs. simpl in Hs.
    unfold Qfloor. symmetry. apply Z.quot_div_nonneg; lia.
  - assert (n < 0) as Hn.
    { destruct (Z.ltb_spec n 0) as [|Hge]; [assumption|].
      assert (Qle_bool 0 (n # d) = true) as Ht; [|congruence].
      apply Qle_bool_iff. unfold Qle. simpl. lia. }
    unfold Qceiling, Qfloor. simpl.
    rewrite <- (Z.quot_div_nonneg (- n) (Z.pos d)) by lia.
    rewrite Z.quot_opp_l by lia. lia.
Qed.

Lemma inject_Z_nonzero (z : Z) : z <> 0 -> Qeq_bool (inject_Z z) 0 = false.
Proof.
  intros Hz. apply not_true_is_false. intros H%Qeq_bool_iff.
  apply Hz. unfold Qeq in H. simpl in H. lia.
Qed.

Lemma inject_Z_neq0 (z : Z) : z <> 0 -> ~ inject_Z z == 0.
Proof. intros Hz H. unfold Qeq in H. simpl in H. lia. Qed.

Lemma inject_Z_sub (x y : Z) : inject_Z (x - y) = (inject_Z x - inject_Z y)%Q.
Proof. unfold Z.sub. by rewrite inject_Z_plus, inject_Z_opp. Qed.

Lemma Qround_half_even_comp (p q : Q) :
  p == q -> Qround_half_even p = Qround_half_even q.
Proof.
  intros Hpq. unfold Qround_half_even.
  rewrite (Qfloor_comp p q Hpq).
  assert ((p - inject_Z (Qfloor q) ?= 1 # 2)%Q = (q - inject_Z (Qfloor q) ?= 1 # 2)%Q) as ->;
    [|reflexivity].
  by rewrite Hpq.
Qed.

Lemma Qround_half_even_Z (z : Z) : Qround_half_even (inject_Z z) = z.
Proof.
  unfold Qround_half_even. rewrite Qfloor_Z.
  assert ((inject_Z z - inject_Z z ?= 1 # 2)%Q = Lt) as ->; [|reflexivity].
  apply (proj1 (Qlt_alt _ _)). lra.
Qed.

(** The result of rounding is within one half of the number rounded. *)
Lemma Qround_half_even_near (q : Q) :
  (inject_Z (Qround_half_even q) - q <= 1 # 2)%Q
  /\ (q - inject_Z (Qround_half_even q) <= 1 # 2)%Q.
Proof.
  unfold Qround_half_even.
  pose proof (Qfloor_le q) as Hlo. pose proof (Qlt_floor q) as Hhi.
  rewrite inject_Z_plus in Hhi. change (inject_Z 1) with 1%Q in Hhi.
  set (f := Qfloor q) in *.
  destruct (q - inject_Z f ?= 1 # 2)%Q eqn:Hc.
  - apply (proj2 (Qeq_alt _ _)) in Hc.
    destruct (Z.even f); rewrite ?inject_Z_plus; change (inject_Z 1) with 1%Q; lra.
  - apply (proj2 (Qlt_alt _ _)) in Hc. lra.
  - apply (proj2 (Qgt_alt _ _)) in Hc. rewrite inject_Z_plus. change (inject_Z 1) with 1%Q. lra.
Qed.

Lemma num_val_add (a b : num) : num_val (num_add a b) == num_val a + num_val b.
Proof. destruct a, b; simpl; try reflexivity. by rewrite inject_Z_plus. Qed.

Lemma num_eqb_refl (a : num) : num_eqb a a = true.
Proof. unfold num_eqb. by apply Qeq_bool_iff. Qed.

(** ** RGB *)

Lemma RGB_eq_refl (c : RGB) : RGB.eq c c = true.
Proof. unfold RGB.eq. by rewrite !num_eqb_refl. Qed.

(** C8. [a + b] on two colours is a new colour whose channels are the
    means of the channels of [a] and [b]; with any operand that is not an
    [RGB] it raises [TypeError]. *)
Theorem RGB_add_mean (self : RGB) :
  (forall other : RGB,
     exists c : RGB,
       RGB.add self (ORGB other) = Ok c
       /\ num_val (red c) == (num_val (red self) + num_val (red other)) / 2
       /\ num_val (green c) == (num_val (green self) + num_val (green other)) / 2
       /\ num_val (blue c) == (num_val (blue self) + num_val (blue other)) / 2)
  /\ (forall other : pyobj, is_RGB other = false -> RGB.add self other = Err TypeError).
Proof.
  split.
  - intros other. eexists. split; [reflexivity|]. simpl.
    by rewrite !num_val_add.
  - intros other Ho. by destruct other.
Qed.

Lemma RGB_add_mean_witness :
  (exists c : RGB,
     RGB.add (rgb 255 0 0) (ORGB (rgb 0 0 255)) = Ok c
     /\ num_val (red c) == (num_val (PInt 255) + num_val (PInt 0)) / 2
     /\ num_val (green c) == (num_val (PInt 0) + num_val (PInt 0)) / 2
     /\ num_val (blue c) == (num_val (PInt 0) + num_val (PInt 255)) / 2)
  /\ RGB.add (rgb 255 0 0) (OStr "red") = Err TypeError.
Proof.
  split.
  - apply (proj1 (RGB_add_mean (rgb 255 0 0)) (rgb 0 0 255)).
  - apply (proj2 (RGB_add_mean (rgb 255 0 0)) (OStr "red")). reflexivity.
Defined.

(** The mean of two integer channels need not be an integer: the channel
    of the sum is a float. *)
Example RGB_add_half :
  RGB.add (rgb 0 0 0) (ORGB (rgb 1 0 0))
  = Ok (mkRGB (PFloat (1 / 2)) (PFloat (0 / 2)) (PFloat (0 / 2))).
Proof. reflexivity. Qed.

Lemma RGB_roundtrip (c : RGB) : RGB.from_dict (RGB.to_dict c) = Ok c.
Proof. by destruct c. Qed.

(** ** Style descriptors *)

Lemma color_eq_refl (c : color) : color_eq c c = true.
Proof. destruct c; simpl; [by apply bool_decide_eq_true | apply RGB_eq_refl]. Qed.

Lemma color_eq_default (c : color) :
  color_eq c (Named "default") = true <-> c = Named "default".
Proof.
  destruct c as [s|c]; simpl.
  - rewrite bool_decide_eq_true. split; congruence.
  - split; discriminate.
Qed.

Lemma Ansi_eq_refl (a : Ansi) : Ansi.eq a a = true.
Proof. unfold Ansi.eq. by rewrite !color_eq_refl, !eqb_reflx. Qed.

Lemma color_val_roundtrip (c : color) :
  Ansi.color_of_val (Ansi.color_to_val c) = Ok c.
Proof. destruct c as [s|c]; simpl; [reflexivity|]. by rewrite RGB_roundtrip. Qed.

Lemma Ansi_roundtrip (a : Ansi) : Ansi.from_dict (Ansi.to_dict a) = Ok a.
Proof.
  destruct a as [f b ? ? ? ? ? ? ?]. unfold Ansi.from_dict, Ansi.to_dict, dict_get. simpl.
  simplify_map_eq. rewrite !color_val_roundtrip. reflexivity.
Qed.

(** C6. Rebuilding a colour, or a style descriptor whose foreground and
    background may be colours, from its structural record gives back an
    equal value: [from_dict(to_dict(x)) == x], with [==] the equality of
    the class ([Ansi.__eq__] compares all nine fields). *)
Theorem from_dict_to_dict :
  (forall c : RGB,
     exists c', RGB.from_dict (RGB.to_dict c) = Ok c' /\ RGB.eq c' c = true /\ c' = c)
  /\ (forall a : Ansi,
        exists a', Ansi.from_dict (Ansi.to_dict a) = Ok a' /\ Ansi.eq a' a = true /\ a' = a).
Proof.
  split.
  - intros c. exists c. by rewrite RGB_roundtrip, RGB_eq_refl.
  - intros a. exists a. by rewrite Ansi_roundtrip, Ansi_eq_refl.
Qed.

(** C7. Merging [self] onto [other] keeps the foreground of [self] unless
    it is "default", and then takes that of [other]; likewise for the
    background; each of the six flags is the disjunction of the two
    flags.  So a "default" foreground merged onto "blue" gives "blue". *)
Theorem Ansi_add_merge (self other : Ansi) :
  (fore self = Named "default" -> fore (Ansi.add self other) = fore other)
  /\ (fore self <> Named "default" -> fore (Ansi.add self other) = fore self)
  /\ (back self = Named "default" -> back (Ansi.add self other) = back other)
  /\ (back self <> Named "default" -> back (Ansi.add self other) = back self)
  /\ bold (Ansi.add self other) = bold self || bold other
  /\ dim (Ansi.add self other) = dim self || dim other
  /\ italic (Ansi.add self other) = italic self || italic other
  /\ underline (Ansi.add self other) = underline self || underline other
  /\ strikethrough (Ansi.add self other) = strikethrough self || strikethrough other
  /\ inverse (Ansi.add self other) = inverse self || inverse other
  /\ (fore self = Named "default" -> fore other = Named "blue" ->
      fore (Ansi.add self other) = Named "blue").
Proof.
  assert (forall x y : color,
            (x = Named "default" -> (if color_eq x (Named "default") then y else x) = y)
            /\ (x <> Named "default" -> (if color_eq x (Named "default") then y else x) = x))
    as Hsel.
  { intros x y. pose proof (color_eq_default x) as Hx.
    destruct (color_eq x (Named "default")); split; try done.
    - intros Hne. destruct Hne. by apply Hx.
    - intros Heq. apply Hx in Heq. discriminate. }
  destruct (Hsel (fore self) (fore other)) as [Hf1 Hf2].
  destruct (Hsel (back self) (back other)) as [Hb1 Hb2].
  simpl. repeat split; try assumption.
  intros Hd Hb. rewrite <- Hb. by apply Hf1.
Qed.

Lemma Ansi_add_merge_witness :
  fore (Ansi.add (mkAnsi (Named "default") (Rgb (rgb 1 2 3)) true false false false false false false)
                 (mkAnsi (Named "blue") (Named "red") false false true false false false true))
  = Named "blue"
  /\ back (Ansi.add (mkAnsi (Named "default") (Rgb (rgb 1 2 3)) true false false false false false false)
                    (mkAnsi (Named "blue") (Named "red") false false true false false false true))
     = Rgb (rgb 1 2 3).
Proof.
  pose proof (Ansi_add_merge
    (mkAnsi (Named "default") (Rgb (rgb 1 2 3)) true false false false false false false)
    (mkAnsi (Named "blue") (Named "red") false false true false false false true)) as H.
  split.
  - apply H; reflexivity.
  - apply H. discriminate.
Defined.

(** C10. Whatever the [reset] flags of the operands, the merged
    descriptor has [reset == True]: [__add__] leaves the argument out and
    [__init__] supplies its default. *)
Theorem Ansi_add_reset (self other : Ansi) : reset (Ansi.add self other) = true.
Proof. reflexivity. Qed.

(** ** gradient *)

(** The loop of [gradient] computes one sample per step, in order. *)
Lemma gradient_traverse (color1 color2 : RGB) (steps : Z) :
  gradient color1 color2 steps = traverse (sample color1 color2 steps) (range steps).
Proof.
  unfold gradient.
  rewrite (for_in_ext _ _ (fun x acc => y ← sample color1 color2 steps x; Ok (acc ++ [y]))).
  - rewrite for_in_append. simpl. apply bind_ok_r.
  - intros step acc. unfold sample.
    destruct (interpolate (red color1) (red color2) step steps); simpl; [|reflexivity].
    destruct (interpolate (green color1) (green color2) step steps); simpl; [|reflexivity].
    by destruct (interpolate (blue color1) (blue color2) step steps).
Qed.

Lemma interpolate_int (a b i steps : Z) :
  steps <> 1 ->
  interpolate (PInt a) (PInt b) i steps = Ok (PInt (sample_channel a b i steps)).
Proof.
  intros Hs. unfold interpolate, num_truediv. simpl.
  rewrite inject_Z_nonzero by lia. simpl. do 2 f_equal.
  apply Qtrunc_comp. by rewrite inject_Z_mult, inject_Z_sub.
Qed.

Lemma interpolate_total (c1 c2 : num) (i steps : Z) :
  steps <> 1 -> exists v, interpolate c1 c2 i steps = Ok v.
Proof.
  intros Hs. unfold interpolate, num_truediv. simpl.
  rewrite inject_Z_nonzero by lia. simpl. eauto.
Qed.

Lemma sample_int (r1 g1 b1 r2 g2 b2 steps i : Z) :
  steps <> 1 ->
  sample (rgb r1 g1 b1) (rgb r2 g2 b2) steps i
  = Ok (rgb (sample_channel r1 r2 i steps) (sample_channel g1 g2 i steps)
            (sample_channel b1 b2 i steps)).
Proof. intros Hs. unfold sample. simpl. by rewrite !interpolate_int. Qed.

Lemma sample_channel_first (a b steps : Z) :
  steps <> 1 -> sample_channel a b 0 steps = a.
Proof.
  intros Hs. unfold sample_channel. etrans; [|apply (Qtrunc_Z a)].
  apply Qtrunc_comp. change (inject_Z 0) with 0%Q.
  field. apply inject_Z_neq0. lia.
Qed.

Lemma sample_channel_last (a b steps : Z) :
  steps <> 1 -> sample_channel a b (steps - 1) steps = b.
Proof.
  intros Hs. unfold sample_channel. etrans; [|apply (Qtrunc_Z b)].
  apply Qtrunc_comp.
  pose proof (inject_Z_neq0 (steps - 1) ltac:(lia)) as Hd.
  revert Hd. generalize (inject_Z (steps - 1)). intros d Hd. by field.
Qed.

(** The sample in integers only: the quotient rounds towards zero. *)
Lemma sample_channel_quot (a b i steps : Z) :
  2 <= steps ->
  sample_channel a b i steps = Z.quot (a * (steps - 1) + (b - a) * i) (steps - 1).
Proof.
  intros Hs. unfold sample_channel.
  destruct (steps - 1) as [|d|d] eqn:Hd; [lia| |lia].
  rewrite <- Qtrunc_quot. apply Qtrunc_comp.
  rewrite (Qmake_Qdiv _ d), inject_Z_plus, !inject_Z_mult, inject_Z_sub.
  field. apply inject_Z_neq0. lia.
Qed.

Lemma gradient_int (r1 g1 b1 r2 g2 b2 steps : Z) :
  steps <> 1 ->
  gradient (rgb r1 g1 b1) (rgb r2 g2 b2) steps
  = Ok (map (fun i => rgb (sample_channel r1 r2 i steps) (sample_channel g1 g2 i steps)
                          (sample_channel b1 b2 i steps))
            (range steps)).
Proof.
  intros Hs. rewrite gradient_traverse. apply traverse_ok.
  intros i _. by apply sample_int.
Qed.

Lemma gradient_total (color1 color2 : RGB) (steps : Z) :
  steps <> 1 -> exists l, gradient color1 color2 steps = Ok l.
Proof.
  intros Hs. rewrite gradient_traverse. apply traverse_total. intros i _.
  unfold sample.
  destruct (interpolate_total (red color1) (red color2) i steps Hs) as [r ->].
  destruct (interpolate_total (green color1) (green color2) i steps Hs) as [g ->].
  destruct (interpolate_total (blue color1) (blue color2) i steps Hs) as [b ->].
  simpl. eauto.
Qed.

Lemma gradient_length (color1 color2 : RGB) (steps : Z) (l : list RGB) :
  gradient color1 color2 steps = Ok l -> length l = Z.to_nat steps.
Proof.
  rewrite gradient_traverse. intros H%traverse_length. by rewrite range_length in H.
Qed.

(** C1. For integer channels and [steps >= 2], [gradient] returns [steps]
    colours; the one at index [i] has in each channel
    [a + (b - a) * i / (steps - 1)] truncated to an integer; the first is
    [colorA] and the last is [colorB]. *)
Theorem gradient_samples (r1 g1 b1 r2 g2 b2 steps : Z) :
  2 <= steps ->
  exists l : list RGB,
    gradient (rgb r1 g1 b1) (rgb r2 g2 b2) steps = Ok l
    /\ Z.of_nat (length l) = steps
    /\ (forall i, 0 <= i < steps ->
          l !! Z.to_nat i
          = Some (rgb (sample_channel r1 r2 i steps) (sample_channel g1 g2 i steps)
                      (sample_channel b1 b2 i steps)))
    /\ l !! Z.to_nat 0 = Some (rgb r1 g1 b1)
    /\ l !! Z.to_nat (steps - 1) = Some (rgb r2 g2 b2).
Proof.
  intros Hs. eexists. split; [apply gradient_int; lia|].
  assert (forall i, 0 <= i < steps ->
            map (fun i => rgb (sample_channel r1 r2 i steps) (sample_channel g1 g2 i steps)
                              (sample_channel b1 b2 i steps)) (range steps) !! Z.to_nat i
            = Some (rgb (sample_channel r1 r2 i steps) (sample_channel g1 g2 i steps)
                        (sample_channel b1 b2 i steps))) as Hnth.
  { intros i Hi. by rewrite list_lookup_fmap, range_lookup. }
  split; [rewrite length_map, range_length; lia|].
  split; [exact Hnth|].
  split.
  - rewrite Hnth by lia. by rewrite !sample_channel_first by lia.
  - rewrite Hnth by lia. by rewrite !sample_channel_last by lia.
Qed.

Lemma gradient_samples_witness :
  exists l : list RGB,
    gradient (rgb 0 0 0) (rgb 255 255 255) 3 = Ok l
    /\ Z.of_nat (length l) = 3
    /\ (forall i, 0 <= i < 3 ->
          l !! Z.to_nat i
          = Some (rgb (sample_channel 0 255 i 3) (sample_channel 0 255 i 3)
                      (sample_channel 0 255 i 3)))
    /\ l !! Z.to_nat 0 = Some (rgb 0 0 0)
    /\ l !! Z.to_nat (3 - 1) = Some (rgb 255 255 255).
Proof. apply (gradient_samples 0 0 0 255 255 255 3). lia. Defined.

(** A colour built by [RGB.__add__] can hold a channel that is not an
    integer; the first sample is then its truncation. *)
Example gradient_float_channel :
  gradient (mkRGB (PFloat (1 # 2)) (PInt 0) (PInt 0)) (rgb 255 255 255) 2
  = Ok [rgb 0 0 0; rgb 255 255 255].
Proof. reflexivity. Qed.

Example gradient_black_white_3 :
  gradient (rgb 0 0 0) (rgb 255 255 255) 3 = Ok [rgb 0 0 0; rgb 127 127 127; rgb 255 255 255].
Proof. reflexivity. Qed.

(** With one step the divisor [steps - 1] is zero, whatever the colours. *)
Lemma gradient_one_step (color1 color2 : RGB) :
  gradient color1 color2 1 = Err ZeroDivisionError.
Proof. reflexivity. Qed.

(** C9. With [steps == 0] the loop body is never reached: no error, and
    the empty list is returned. *)
Theorem gradient_zero_steps (color1 color2 : RGB) :
  gradient color1 color2 0 = Ok [].
Proof. reflexivity. Qed.

(** C2, as amended. For [steps <= 0] nothing is validated: [gradient]
    raises no error and returns the empty list. *)
Theorem gradient_nonpositive_steps (color1 color2 : RGB) (steps : Z) :
  steps <= 0 -> gradient color1 color2 steps = Ok [].
Proof. intros Hs. unfold gradient. by rewrite range_nonpos. Qed.

Lemma gradient_nonpositive_steps_witness :
  gradient (rgb 255 0 0) (rgb 0 0 255) (-3) = Ok [].
Proof. apply (gradient_nonpositive_steps (rgb 255 0 0) (rgb 0 0 255) (-3)). lia. Defined.

(** C2, as stated, fails: [steps = 0] is at most 1, yet [gradient] returns
    a list and raises nothing. *)
Lemma gradient_invalid_steps_counterexample :
  ~ (forall (color1 color2 : RGB) (steps : Z),
       steps <= 1 -> exists e : exn, gradient color1 color2 steps = Err e).
Proof.
  intros H. destruct (H (rgb 0 0 0) (rgb 255 255 255) 0) as [e He]; [lia|].
  discriminate He.
Qed.

(** ** gradient in finite precision *)

Lemma Qfloor_unique (q : Q) (k : Z) :
  (inject_Z k <= q)%Q -> (q < inject_Z k + 1)%Q -> Qfloor q = k.
Proof.
  intros Hlo Hhi.
  pose proof (Qfloor_le q) as Hfl. pose proof (Qlt_floor q) as Hfh.
  assert (inject_Z (Qfloor q) < inject_Z (k + 1))%Q as H1.
  { rewrite inject_Z_plus. change (inject_Z 1) with 1%Q. lra. }
  assert (inject_Z k < inject_Z (Qfloor q + 1))%Q as H2 by lra.
  rewrite <- Zlt_Qlt in H1, H2. lia.
Qed.

Lemma Qtrunc_unique (q : Q) (k : Z) :
  0 <= k -> (inject_Z k <= q)%Q -> (q < inject_Z k + 1)%Q -> Qtrunc q = k.
Proof.
  intros Hk Hlo Hhi. unfold Qtrunc.
  assert (Qle_bool 0 q = true) as ->.
  { apply Qle_bool_iff. rewrite Zle_Qle in Hk. change (inject_Z 0) with 0%Q in Hk. lra. }
  by apply Qfloor_unique.
Qed.

Section finite_precision.

(** Rounding to the nearest binary64 number, as far as it matters here:
    integers of small magnitude are exact, and a number of magnitude up to
    1024 is moved by at most half a unit in the last place, 2^-44. *)
Variable fl : Q -> Q.
Hypothesis fl_proper : forall p q : Q, p == q -> fl p == fl q.
Hypothesis fl_int : forall z : Z, -1024 <= z <= 1024 -> fl (inject_Z z) == inject_Z z.
Hypothesis fl_near :
  forall q : Q, (-1024 <= q <= 1024)%Q ->
    (- (1 # 17592186044416) <= fl q - q <= 1 # 17592186044416)%Q.

(** For channels in 0..255 and fewer than 2^43 steps, rounding the quotient
    and the sum does not change the integer [int(...)] returns. *)
Lemma rounded_channel_exact (a b i steps : Z) :
  0 <= a <= 255 -> 0 <= b <= 255 ->
  2 <= steps <= 8796093022208 ->
  0 <= i < steps ->
  rounded_channel fl a b i steps = sample_channel a b i steps.
Proof.
  intros Ha Hb Hs Hi. unfold rounded_channel, sample_channel.
  set (m := steps - 1). assert (1 <= m < 8796093022208) as Hm by lia.
  set (N := a * m + (b - a) * i).
  assert (0 <= N <= 255 * m) as HN by (unfold N; nia).
  pose proof (Z.div_mod N m ltac:(lia)) as Hdiv.
  pose proof (Z.mod_pos_bound N m ltac:(lia)) as Hr.
  set (k := N / m) in *. set (r := N mod m) in *.
  assert (0 <= k <= 255) as Hk by nia.
  pose proof (inject_Z_neq0 m ltac:(lia)) as Hm0.
  set (X := (inject_Z a + (inject_Z b - inject_Z a) * inject_Z i / inject_Z m)%Q).
  set (x := (inject_Z ((b - a) * i) / inject_Z m)%Q).
  assert (x == X - inject_Z a)%Q as Hx.
  { unfold x, X. rewrite inject_Z_mult, inject_Z_sub. by field. }
  assert (X == inject_Z k + inject_Z r / inject_Z m)%Q as HX.
  { transitivity (inject_Z N / inject_Z m)%Q.
    - unfold X, N. rewrite inject_Z_plus, !inject_Z_mult, inject_Z_sub. by field.
    - rewrite Hdiv, inject_Z_plus, inject_Z_mult. by field. }
  destruct (Z.eq_dec r 0) as [Hr0|Hr0].
  - (* the exact value is the integer k *)
    assert (X == inject_Z k)%Q as HXk.
    { rewrite HX, Hr0. change (inject_Z 0) with 0%Q. by field. }
    assert (x == inject_Z (k - a))%Q as Hxk.
    { rewrite Hx, HXk, inject_Z_sub. reflexivity. }
    assert (fl x == inject_Z (k - a))%Q as Hq1.
    { rewrite (fl_proper _ _ Hxk). apply fl_int. lia. }
    assert (fl (inject_Z a + fl x) == inject_Z k)%Q as Hz.
    { rewrite (fl_proper _ (inject_Z k)).
      - apply fl_int. lia.
      - rewrite Hq1, inject_Z_sub. ring. }
    rewrite (Qtrunc_comp _ _ Hz), (Qtrunc_comp _ _ HXk). reflexivity.
  - (* the exact value is at least 1/m away from the integers *)
    set (P := Z.to_pos m). assert (Z.pos P = m) as HP by (unfold P; lia).
    assert (inject_Z r / inject_Z m == r # P)%Q as Hrho.
    { rewrite (Qmake_Qdiv r P), HP. reflexivity. }
    rewrite Hrho in HX.
    assert (1 # P <= r # P)%Q as Hlo by (unfold Qle; simpl; nia).
    assert (r # P <= 1 - (1 # P))%Q as Hhi.
    { unfold Qle, Qminus, Qplus, Qopp. simpl. nia. }
    assert (1 # 8796093022208 < 1 # P)%Q as Hmu by (unfold Qlt; simpl; lia).
    assert (0 <= inject_Z k <= 255)%Q as HkQ.
    { split; [change 0%Q with (inject_Z 0) | change 255%Q with (inject_Z 255)];
        rewrite <- Zle_Qle; lia. }
    assert (0 <= inject_Z a <= 255)%Q as HaQ.
    { split; [change 0%Q with (inject_Z 0) | change 255%Q with (inject_Z 255)];
        rewrite <- Zle_Qle; lia. }
    assert (k <= 254) as Hk' by nia.
    assert (inject_Z k <= 254)%Q as HkQ'.
    { change 254%Q with (inject_Z 254). rewrite <- Zle_Qle. lia. }
    pose proof (fl_near x ltac:(lra)) as Hq1.
    pose proof (fl_near (inject_Z a + fl x)%Q ltac:(lra)) as Hz.
    rewrite (Qtrunc_unique _ k), (Qtrunc_unique X k); [reflexivity| | | | | |]; lra || lia.
Qed.

End finite_precision.

(** Exact arithmetic is one such rounding. *)
Example rounded_channel_identity :
  rounded_channel (fun q => q) 0 255 1 3 = sample_channel 0 255 1 3.
Proof.
  apply rounded_channel_exact; try lia.
  - intros p q Hpq. exact Hpq.
  - intros z _. reflexivity.
  - intros q _. split; apply Qle_minus_iff; ring_simplify; discriminate.
Qed.

(** ** adv_gradient: the loops *)

(** The loop that fills [perc]. *)
Lemma perc_loop (pre : list Z) (x : Z) (l acc : list Z) :
  for_in (enumerate l (Z.of_nat (length pre) + 1))
    (fun '(i, n) perc => prev ← py_index (pre ++ x :: l) (i - 1); Ok (perc ++ [n - prev]))
    acc
  = Ok (acc ++ diffs (x :: l)).
Proof.
  revert pre x acc. induction l as [|y l IH]; intros pre x acc.
  - simpl. by rewrite app_nil_r.
  - cbn [enumerate for_in].
    replace (Z.of_nat (length pre) + 1 - 1) with (Z.of_nat (length pre)) by lia.
    rewrite py_index_middle. bind_step.
    specialize (IH (pre ++ [x]) y (acc ++ [y - x])).
    rewrite length_app in IH. simpl in IH.
    replace (Z.of_nat (length pre + 1)) with (Z.of_nat (length pre) + 1) in IH by lia.
    rewrite <- app_assoc in IH. simpl in IH. rewrite IH.
    rewrite <- app_assoc. reflexivity.
Qed.

Lemma perc_loop_marks (x : Z) (l : list Z) :
  for_in (enumerate (drop 1 (x :: l)) 1)
    (fun '(i, n) perc => prev ← py_index (x :: l) (i - 1); Ok (perc ++ [n - prev]))
    []
  = Ok (diffs (x :: l)).
Proof. apply (perc_loop [] x l []). Qed.

(** The differences telescope. *)
Lemma py_sum_diffs (x : Z) (l : list Z) : py_sum (diffs (x :: l)) = List.last l x - x.
Proof.
  revert x. induction l as [|y l IH]; intros x.
  - simpl. unfold py_sum. simpl. lia.
  - change (diffs (x :: y :: l)) with ((y - x) :: diffs (y :: l)).
    rewrite py_sum_cons, IH.
    rewrite last_cons_default. lia.
Qed.

Lemma diffs_snoc (x : Z) (l : list Z) (y : Z) :
  diffs ((x :: l) ++ [y]) = diffs (x :: l) ++ [y - List.last l x].
Proof.
  revert x. induction l as [|z l IH]; intros x; [reflexivity|].
  change (diffs ((x :: z :: l) ++ [y])) with ((z - x) :: diffs ((z :: l) ++ [y])).
  rewrite IH.
  change (diffs (x :: z :: l)) with ((z - x) :: diffs (z :: l)).
  by rewrite last_cons_default.
Qed.

(** The loop that fills [steps_per], when the spans add up to 100. *)
Lemma steps_per_loop (perc : list Z) (total steps : Z) :
  total = 100 ->
  for_in perc
    (fun i steps_per =>
       f ← num_truediv (PInt i) (PInt total);
       Ok (steps_per ++ [py_round (num_mul f (PInt steps))]))
    []
  = Ok (map (allocation steps) perc).
Proof.
  intros ->.
  rewrite (for_in_ext _ _
    (fun i acc => y ← (fun i => Ok (allocation steps i)) i; Ok (acc ++ [y]))).
  - rewrite for_in_append. by rewrite (traverse_ok _ (allocation steps)).
  - intros i acc. reflexivity.
Qed.

(** A run of one colour. *)
Lemma add_run_replicate (sorted_cols : list (RGB * Z)) (i n : Z) (c : RGB * Z)
    (acc : list RGB) :
  py_index sorted_cols i = Ok c ->
  add_run sorted_cols i n acc = Ok (acc ++ replicate (Z.to_nat n) c.1).
Proof.
  intros Hc. unfold add_run.
  rewrite (for_in_ext _ _ (fun x acc => y ← (fun _ => Ok c.1) x; Ok (acc ++ [y]))).
  - rewrite for_in_append, (traverse_ok _ (fun _ => c.1)) by done. simpl.
    do 2 f_equal. unfold range. rewrite map_map.
    generalize (Z.to_nat n) 0%nat. intros k. induction k as [|k IH]; intros s; simpl;
      [reflexivity | by rewrite IH].
  - intros x s. by rewrite Hc.
Qed.

Lemma between_cons2 (steps : Z) (a b : RGB * Z) (stops : list (RGB * Z)) :
  between steps (a :: b :: stops)
  = g ← gradient a.1 b.1 (allocation steps (b.2 - a.2));
    rest ← between steps (b :: stops);
    Ok (g ++ rest).
Proof. reflexivity. Qed.

(** The middle loop, which reads the stops by index, walks the stops pair
    by pair. *)
Lemma add_middle_between (pre stops : list (RGB * Z)) (steps : Z) (acc : list RGB) :
  for_in (enumerate (map (allocation steps) (diffs (map snd stops)))
                    (Z.of_nat (length pre)))
    (fun '(i, steps) result =>
       a ← py_index (pre ++ stops) i;
       b ← py_index (pre ++ stops) (i + 1);
       g ← gradient a.1 b.1 steps;
       Ok (result ++ g))
    acc
  = mid ← between steps stops; Ok (acc ++ mid).
Proof.
  revert pre acc. induction stops as [|a stops IH]; intros pre acc.
  - simpl. by rewrite app_nil_r.
  - destruct stops as [|b stops].
    + simpl. by rewrite app_nil_r.
    + change (diffs (map snd (a :: b :: stops)))
        with ((b.2 - a.2) :: diffs (map snd (b :: stops))).
      rewrite map_cons, between_cons2. cbn [enumerate for_in].
      rewrite py_index_middle. bind_step.
      assert (py_index (pre ++ a :: b :: stops) (Z.of_nat (length pre) + 1) = Ok b) as ->.
      { replace (pre ++ a :: b :: stops) with ((pre ++ [a]) ++ b :: stops)
          by (by rewrite <- app_assoc).
        replace (Z.of_nat (length pre) + 1) with (Z.of_nat (length (pre ++ [a])))
          by (rewrite length_app; simpl; lia).
        apply py_index_middle. }
      bind_step.
      destruct (gradient a.1 b.1 (allocation steps (b.2 - a.2))) as [g|e];
        bind_step; [|reflexivity].
      pose proof (IH (pre ++ [a]) (acc ++ g)) as IH'.
      rewrite length_app, Nat2Z.inj_add in IH'.
      change (Z.of_nat (length [a])) with 1 in IH'.
      rewrite <- app_assoc in IH'. change ([a] ++ b :: stops) with (a :: b :: stops) in IH'.
      rewrite IH'.
      destruct (between steps (b :: stops)) as [mid|e]; bind_step;
        [|reflexivity].
      by rewrite <- app_assoc.
Qed.

Lemma add_middle_stops (stops : list (RGB * Z)) (steps : Z) (acc : list RGB) :
  add_middle stops (map (allocation steps) (diffs (map snd stops))) acc
  = mid ← between steps stops; Ok (acc ++ mid).
Proof. apply (add_middle_between [] stops steps acc). Qed.

(** ** adv_gradient: the result *)

Lemma adv_gradient_empty (steps : Z) : adv_gradient [] steps = Err IndexError.
Proof. reflexivity. Qed.

Lemma adv_gradient_stops (colors : list (RGB * Z)) (steps : Z)
    (s0 : RGB * Z) (rest : list (RGB * Z)) :
  py_sorted snd colors = s0 :: rest ->
  adv_gradient colors steps
  = mid ← between steps (s0 :: rest);
    Ok (leading_run steps s0 ++ mid ++ trailing_run steps (List.last rest s0)).
Proof.
  intros Hsorted. unfold adv_gradient. rewrite Hsorted.
  rewrite py_index_0, py_index_neg1. bind_step.
  set (sl := List.last rest s0).
  assert (List.last (map snd rest) s0.2 = sl.2) as Hlast by apply last_map_snd.
  unfold leading_run, trailing_run.
  destruct (Z.eqb_spec s0.2 0) as [H0|H0]; destruct (Z.eqb_spec sl.2 100) as [Hl|Hl];
    cbn [negb].
  - change ([] ++ map snd (s0 :: rest)) with (s0.2 :: map snd rest).
    rewrite perc_loop_marks. bind_step.
    rewrite steps_per_loop by (rewrite py_sum_diffs; lia). bind_step.
    change (s0.2 :: map snd rest) with (map snd (s0 :: rest)).
    rewrite add_middle_stops.
    destruct (between steps (s0 :: rest)) as [mid|e]; bind_step; [|done].
    by rewrite app_nil_r.
  - change (([] ++ map snd (s0 :: rest)) ++ [100])
      with (s0.2 :: (map snd rest ++ [100])).
    rewrite perc_loop_marks. bind_step.
    change (s0.2 :: (map snd rest ++ [100])) with ((s0.2 :: map snd rest) ++ [100]).
    rewrite diffs_snoc, Hlast.
    rewrite steps_per_loop by (rewrite py_sum_app, py_sum_diffs, Hlast; unfold py_sum; simpl; lia).
    bind_step. rewrite map_app. cbn [map].
    rewrite py_pop_last. bind_step.
    change (s0.2 :: map snd rest) with (map snd (s0 :: rest)).
    rewrite add_middle_stops.
    destruct (between steps (s0 :: rest)) as [mid|e]; bind_step; [|done].
    rewrite py_index_last. bind_step.
    by rewrite (add_run_replicate _ _ _ sl) by apply py_index_neg1.
  - change ([0] ++ map snd (s0 :: rest)) with (0 :: s0.2 :: map snd rest).
    rewrite perc_loop_marks. bind_step.
    rewrite steps_per_loop by (rewrite py_sum_diffs, last_cons_default; lia).
    bind_step.
    change (diffs (0 :: s0.2 :: map snd rest))
      with ((s0.2 - 0) :: diffs (map snd (s0 :: rest))).
    rewrite map_cons, py_index_0. bind_step.
    rewrite (add_run_replicate _ _ _ s0) by apply py_index_0. bind_step.
    rewrite py_pop_0. bind_step.
    rewrite add_middle_stops.
    destruct (between steps (s0 :: rest)) as [mid|e]; bind_step; [|done].
    by rewrite app_nil_r.
  - change (([0] ++ map snd (s0 :: rest)) ++ [100])
      with (0 :: ((s0.2 :: map snd rest) ++ [100])).
    rewrite perc_loop_marks. bind_step.
    change (diffs (0 :: (s0.2 :: map snd rest) ++ [100]))
      with ((s0.2 - 0) :: diffs ((s0.2 :: map snd rest) ++ [100])).
    rewrite diffs_snoc, Hlast.
    rewrite steps_per_loop
      by (rewrite py_sum_cons, py_sum_app, py_sum_diffs, Hlast; unfold py_sum; simpl; lia).
    bind_step. rewrite map_cons, map_app. cbn [map].
    rewrite py_index_0. bind_step.
    rewrite (add_run_replicate _ _ _ s0) by apply py_index_0. bind_step.
    rewrite py_pop_0. bind_step.
    rewrite py_pop_last. bind_step.
    change (s0.2 :: map snd rest) with (map snd (s0 :: rest)).
    rewrite add_middle_stops.
    destruct (between steps (s0 :: rest)) as [mid|e]; bind_step; [|done].
    rewrite py_index_last. bind_step.
    rewrite (add_run_replicate _ _ _ sl) by apply py_index_neg1.
    by rewrite <- app_assoc.
Qed.

Lemma allocation_100 (steps : Z) : allocation steps 100 = steps.
Proof.
  unfold allocation. etrans; [|apply (Qround_half_even_Z steps)].
  apply Qround_half_even_comp. field.
Qed.

Lemma adv_gradient_two_stops (a b : RGB) (steps : Z) :
  adv_gradient [(a, 0); (b, 100)] steps = gradient a b steps.
Proof.
  rewrite (adv_gradient_stops _ steps (a, 0) [(b, 100)]) by reflexivity.
  rewrite between_cons2. cbn [fst snd].
  replace (100 - 0) with 100 by lia. rewrite allocation_100.
  destruct (gradient a b steps) as [g|e]; [|reflexivity].
  cbn. by rewrite !app_nil_r.
Qed.

(** C3. For [steps >= 2] the advanced gradient of the two stops
    [(a, 0)] and [(b, 100)] returns the very list [gradient(a, b, steps)]
    returns; so it does for red, blue and 10 steps. *)
Theorem adv_gradient_two_stops_gradient :
  (forall (a b : RGB) (steps : Z),
     2 <= steps ->
     exists l : list RGB,
       gradient a b steps = Ok l /\ adv_gradient [(a, 0); (b, 100)] steps = Ok l)
  /\ adv_gradient [(rgb 255 0 0, 0); (rgb 0 0 255, 100)] 10
     = gradient (rgb 255 0 0) (rgb 0 0 255) 10.
Proof.
  split.
  - intros a b steps Hs. destruct (gradient_total a b steps) as [l Hl]; [lia|].
    exists l. by rewrite adv_gradient_two_stops.
  - apply adv_gradient_two_stops.
Qed.

Lemma adv_gradient_two_stops_gradient_witness :
  exists l : list RGB,
    gradient (rgb 255 0 0) (rgb 0 0 255) 10 = Ok l
    /\ adv_gradient [(rgb 255 0 0, 0); (rgb 0 0 255, 100)] 10 = Ok l.
Proof.
  apply (proj1 adv_gradient_two_stops_gradient (rgb 255 0 0) (rgb 0 0 255) 10). lia.
Defined.

Lemma between_total (steps : Z) (stops : list (RGB * Z)) :
  Forall (fun d => allocation steps d <> 1) (diffs (map snd stops)) ->
  exists mid, between steps stops = Ok mid.
Proof.
  induction stops as [|a stops IH]; [by eexists|].
  destruct stops as [|b stops]; [by eexists|].
  change (diffs (map snd (a :: b :: stops)))
    with ((b.2 - a.2) :: diffs (map snd (b :: stops))).
  intros [Hab Hrest]%Forall_cons. rewrite between_cons2.
  destruct (gradient_total a.1 b.1 _ Hab) as [g ->].
  destruct (IH Hrest) as [mid ->]. by eexists.
Qed.

(** The example of the docstring, with 20 steps: two reds, the four steps
    from red to green, the eight from green to blue, six blues. *)
Example adv_gradient_docstring :
  adv_gradient [(rgb 255 0 0, 10); (rgb 0 255 0, 30); (rgb 0 0 255, 70)] 20
  = Ok [rgb 255 0 0; rgb 255 0 0;
        rgb 255 0 0; rgb 170 85 0; rgb 85 170 0; rgb 0 255 0;
        rgb 0 255 0; rgb 0 218 36; rgb 0 182 72; rgb 0 145 109;
        rgb 0 109 145; rgb 0 72 182; rgb 0 36 218; rgb 0 0 255;
        rgb 0 0 255; rgb 0 0 255; rgb 0 0 255; rgb 0 0 255; rgb 0 0 255; rgb 0 0 255].
Proof. reflexivity. Qed.

(** Stops given out of order are sorted first. *)
Example adv_gradient_unsorted :
  adv_gradient [(rgb 0 0 255, 70); (rgb 255 0 0, 10); (rgb 0 255 0, 30)] 20
  = adv_gradient [(rgb 255 0 0, 10); (rgb 0 255 0, 30); (rgb 0 0 255, 70)] 20.
Proof. reflexivity. Qed.

(** [adv_gradient] returns a list when no pair of neighbouring stops is
    allocated exactly one step. *)
Lemma adv_gradient_total (colors : list (RGB * Z)) (steps : Z) :
  colors <> [] ->
  Forall (fun d => allocation steps d <> 1) (diffs (map snd (py_sorted snd colors))) ->
  exists res, adv_gradient colors steps = Ok res.
Proof.
  intros Hne Halloc.
  destruct (py_sorted_nonempty snd colors Hne) as (s0 & rest & Hsorted).
  rewrite (adv_gradient_stops _ steps s0 rest Hsorted).
  rewrite Hsorted in Halloc. destruct (between_total steps _ Halloc) as [mid ->].
  by eexists.
Qed.

(** ** adv_gradient: the length of the result *)

Lemma allocation_near (steps d : Z) :
  -50 <= 100 * allocation steps d - d * steps <= 50.
Proof.
  unfold allocation.
  set (q := (inject_Z d / inject_Z 100 * inject_Z steps)%Q).
  destruct (Qround_half_even_near q) as [Hup Hlo].
  assert (q == inject_Z (d * steps) / 100)%Q as Hq.
  { unfold q. rewrite inject_Z_mult. change (inject_Z 100) with 100%Q. field. }
  set (r := Qround_half_even q) in *. clearbody r q.
  assert (inject_Z (100 * r - d * steps) <= inject_Z 50
          /\ inject_Z (-50) <= inject_Z (100 * r - d * steps))%Q as [H1 H2].
  { rewrite inject_Z_sub, (inject_Z_mult 100).
    change (inject_Z 100) with 100%Q. change (inject_Z 50) with 50%Q.
    change (inject_Z (-50)) with (-50)%Q.
    revert Hup Hlo Hq. generalize (inject_Z (d * steps)) (inject_Z r).
    intros x y Hup Hlo Hq.
    assert (x == 100 * q)%Q as Hx by (rewrite Hq; field).
    split; lra. }
  rewrite <- Zle_Qle in H1, H2. lia.
Qed.

Lemma allocation_nonneg (steps d : Z) : 0 <= steps -> 0 <= d -> 0 <= allocation steps d.
Proof. intros Hs Hd. pose proof (allocation_near steps d). nia. Qed.

Lemma run_total_app (steps : Z) (l1 l2 : list Z) :
  run_total steps (l1 ++ l2) = run_total steps l1 + run_total steps l2.
Proof. unfold run_total. by rewrite map_app, py_sum_app. Qed.

Lemma run_total_cons (steps d : Z) (l : list Z) :
  run_total steps (d :: l) = Z.of_nat (Z.to_nat (allocation steps d)) + run_total steps l.
Proof. unfold run_total. by rewrite map_cons, py_sum_cons. Qed.

(** Rounding moves the total by at most half a colour per span. *)
Lemma run_total_near (steps : Z) (spans : list Z) :
  0 <= steps ->
  Forall (fun d => 0 <= d) spans ->
  -50 * Z.of_nat (length spans)
  <= 100 * run_total steps spans - py_sum spans * steps
  <= 50 * Z.of_nat (length spans).
Proof.
  intros Hs. induction 1 as [|d spans Hd _ IH].
  - unfold run_total, py_sum. simpl. lia.
  - rewrite run_total_cons, py_sum_cons.
    pose proof (allocation_near steps d).
    pose proof (allocation_nonneg steps d Hs Hd).
    cbn [length]. lia.
Qed.

Lemma between_length (steps : Z) (stops : list (RGB * Z)) (mid : list RGB) :
  between steps stops = Ok mid ->
  Z.of_nat (length mid) = run_total steps (diffs (map snd stops)).
Proof.
  revert mid. induction stops as [|a stops IH]; intros mid.
  - intros [= <-]. reflexivity.
  - destruct stops as [|b stops].
    + intros [= <-]. reflexivity.
    + rewrite between_cons2.
      destruct (gradient a.1 b.1 (allocation steps (b.2 - a.2))) as [g|e] eqn:Hg;
        bind_step; [|discriminate].
      destruct (between steps (b :: stops)) as [rest|e];
        bind_step; [|discriminate].
      intros [= <-].
      change (diffs (map snd (a :: b :: stops)))
        with ((b.2 - a.2) :: diffs (map snd (b :: stops))).
      rewrite run_total_cons, <- (IH rest eq_refl), length_app.
      apply gradient_length in Hg. lia.
Qed.

Lemma diffs_marks (s0 : RGB * Z) (rest : list (RGB * Z)) :
  diffs (marks (s0 :: rest))
  = (if s0.2 =? 0 then [] else [s0.2 - 0])
    ++ diffs (map snd (s0 :: rest))
    ++ (if (List.last rest s0).2 =? 100 then [] else [100 - (List.last rest s0).2]).
Proof.
  unfold marks. pose proof (last_map_snd s0 rest) as Hlast.
  destruct (s0.2 =? 0), ((List.last rest s0).2 =? 100).
  - by rewrite !app_nil_r.
  - change ([] ++ map snd (s0 :: rest) ++ [100]) with ((s0.2 :: map snd rest) ++ [100]).
    by rewrite diffs_snoc, Hlast.
  - by rewrite !app_nil_r.
  - change ([0] ++ map snd (s0 :: rest) ++ [100])
      with (0 :: ((s0.2 :: map snd rest) ++ [100])).
    change (diffs (0 :: (s0.2 :: map snd rest) ++ [100]))
      with ((s0.2 - 0) :: diffs ((s0.2 :: map snd rest) ++ [100])).
    by rewrite diffs_snoc, Hlast.
Qed.

(** The spans between the marks add up to 100. *)
Lemma py_sum_diffs_marks (s0 : RGB * Z) (rest : list (RGB * Z)) :
  py_sum (diffs (marks (s0 :: rest))) = 100.
Proof.
  rewrite diffs_marks, !py_sum_app.
  change (map snd (s0 :: rest)) with (s0.2 :: map snd rest).
  rewrite py_sum_diffs, last_map_snd.
  destruct (Z.eqb_spec s0.2 0), (Z.eqb_spec (List.last rest s0).2 100);
    unfold py_sum; simpl; lia.
Qed.

Lemma diffs_sorted_nonneg (stops : list (RGB * Z)) :
  Sorted (fun x y => x.2 <= y.2) stops ->
  Forall (fun d => 0 <= d) (diffs (map snd stops)).
Proof.
  induction 1 as [|a stops Hs IH Hhd]; [constructor|].
  destruct Hhd as [|b stops Hab]; [constructor|].
  change (diffs (map snd (a :: b :: stops)))
    with ((b.2 - a.2) :: diffs (map snd (b :: stops))).
  constructor; [lia | exact IH].
Qed.

(** X9. Whenever [adv_gradient] returns, for percentages in [0, 100] and a
    step count that is not negative, the length of the list differs from
    the step count by at most the number of segments (indeed by at most
    half of it). *)
Lemma adv_gradient_length (colors : list (RGB * Z)) (steps : Z) (res : list RGB) :
  Forall (fun s => 0 <= s.2 <= 100) colors ->
  0 <= steps ->
  adv_gradient colors steps = Ok res ->
  2 * Z.abs (Z.of_nat (length res) - steps) <= Z.of_nat (segments colors).
Proof.
  intros Hrange Hsteps Hres.
  destruct colors as [|c colors]; [discriminate|].
  destruct (py_sorted_nonempty snd (c :: colors)) as (s0 & rest & Hsorted); [done|].
  rewrite (adv_gradient_stops _ steps s0 rest Hsorted) in Hres.
  destruct (between steps (s0 :: rest)) as [mid|e] eqn:Hmid;
    bind_step in Hres; [|discriminate].
  injection Hres as <-.
  pose proof (py_sorted_sorted snd (c :: colors)) as Hord. rewrite Hsorted in Hord.
  assert (Forall (fun s => 0 <= s.2 <= 100) (s0 :: rest)) as Hrange'.
  { rewrite <- Hsorted. by rewrite py_sorted_perm. }
  set (sl := List.last rest s0).
  assert (0 <= s0.2 <= 100) as H0 by (by inversion Hrange').
  assert (0 <= sl.2 <= 100) as Hl.
  { rewrite Forall_forall in Hrange'. apply Hrange'. apply last_elem_of. }
  assert (Z.of_nat (length (leading_run steps s0 ++ mid ++ trailing_run steps sl))
          = run_total steps (diffs (marks (s0 :: rest)))) as Hlen.
  { rewrite diffs_marks, !run_total_app, !length_app, !Nat2Z.inj_add.
    rewrite (between_length _ _ _ Hmid). fold sl.
    unfold leading_run, trailing_run.
    destruct (s0.2 =? 0), (sl.2 =? 100);
      rewrite ?run_total_cons, ?length_replicate; unfold run_total, py_sum; simpl; lia. }
  assert (Forall (fun d => 0 <= d) (diffs (marks (s0 :: rest)))) as Hnonneg.
  { rewrite diffs_marks. fold sl. rewrite !Forall_app. split; [|split].
    - destruct (s0.2 =? 0); repeat constructor. lia.
    - by apply diffs_sorted_nonneg.
    - destruct (sl.2 =? 100); repeat constructor. lia. }
  pose proof (run_total_near steps _ Hsteps Hnonneg) as Hnear.
  rewrite py_sum_diffs_marks in Hnear.
  unfold segments. rewrite Hsorted, Hlen. lia.
Qed.

(** C4. Three stops at 0, 50 and 100 percent and two steps: each of the
    two segments is allocated one step, and [gradient] with one step
    divides by zero, so no list is returned, although the percentages are
    in range and the step count is positive. *)
Theorem adv_gradient_one_step_segment :
  Forall (fun s : RGB * Z => 0 <= s.2 <= 100)
         [(rgb 255 0 0, 0); (rgb 0 255 0, 50); (rgb 0 0 255, 100)]
  /\ 0 < 2
  /\ adv_gradient [(rgb 255 0 0, 0); (rgb 0 255 0, 50); (rgb 0 0 255, 100)] 2
     = Err ZeroDivisionError.
Proof.
  split; [|split; [lia | reflexivity]].
  repeat constructor; simpl; lia.
Qed.

(** ** adv_gradient with the rounding of the code *)

(** Exact arithmetic is one way to round the shares: it gives the
    [adv_gradient] of the first part. *)
Lemma adv_gradient_by_exact (colors : list (RGB * Z)) (steps : Z) :
  adv_gradient_by share_exact colors steps = adv_gradient colors steps.
Proof.
  unfold adv_gradient_by, adv_gradient.
  destruct (py_index (py_sorted snd colors) 0) as [first|e]; bind_step; [|done].
  destruct (py_index (py_sorted snd colors) (-1)) as [last_col|e]; bind_step; [|done].
  match goal with
  | |- context [for_in (enumerate ?l 1) ?f []] => destruct (for_in (enumerate l 1) f [])
  end; bind_step; [|done].
  match goal with
  | |- (x ← ?m; _) = (y ← ?m'; _) => assert (m = m') as ->; [|reflexivity]
  end.
  apply for_in_ext. intros i acc. unfold share_exact.
  by destruct (num_truediv (PInt i) (PInt (py_sum a))).
Qed.

(** Binary64 does not round every share as exact arithmetic does: 14
    percent of 75 steps is 10.5, which is rounded to 10, and Python computes
    10.500000000000002, which is rounded to 11. *)
Example share_b64_not_exact :
  share_b64 14 100 75 = Ok 11 /\ share_exact 14 100 75 = Ok 10
  /\ share_b64 7 100 150 = Ok 11 /\ share_exact 7 100 150 = Ok 10
  /\ share_b64 70 100 45 = Ok 31 /\ share_exact 70 100 45 = Ok 32.
Proof. repeat split; vm_compute; reflexivity. Qed.

(** A step count too large for a float raises [OverflowError]. *)
Example share_b64_overflow : share_b64 50 100 (10 ^ 400) = Err OverflowError.
Proof. vm_compute. reflexivity. Qed.

Lemma traverse_allotted (share : Z -> Z -> Z -> result Z) (steps : Z)
    (spans ks : list Z) :
  shares share steps spans = Ok ks -> ks = map (allotted share steps) spans.
Proof.
  unfold shares. revert ks. induction spans as [|d spans IH]; intros ks; simpl.
  - by intros [= <-].
  - unfold allotted at 1. destruct (share d 100 steps) as [n|e]; bind_step; [|done].
    destruct (traverse (fun d => share d 100 steps) spans) as [ks'|e];
      bind_step; [|done].
    intros [= <-]. by rewrite (IH ks').
Qed.

Lemma shares_app (share : Z -> Z -> Z -> result Z) (steps : Z) (l1 l2 : list Z) :
  shares share steps (l1 ++ l2)
  = ks1 ← shares share steps l1; ks2 ← shares share steps l2; Ok (ks1 ++ ks2).
Proof.
  unfold shares. induction l1 as [|d l1 IH]; simpl.
  - by destruct (traverse (fun d => share d 100 steps) l2).
  - destruct (share d 100 steps) as [n|e]; bind_step; [|done].
    rewrite IH.
    destruct (traverse (fun d => share d 100 steps) l1) as [ks1|e]; bind_step; [|done].
    by destruct (traverse (fun d => share d 100 steps) l2).
Qed.

(** The loop that fills [steps_per], when the spans add up to 100. *)
Lemma steps_per_loop_by (share : Z -> Z -> Z -> result Z) (perc : list Z)
    (total steps : Z) :
  total = 100 ->
  for_in perc
    (fun i steps_per => n ← share i total steps; Ok (steps_per ++ [n]))
    []
  = ks ← shares share steps perc; Ok (map (allotted share steps) perc).
Proof.
  intros ->. rewrite for_in_append.
  destruct (traverse (fun i => share i 100 steps) perc) as [ks|e] eqn:Hks;
    unfold shares; rewrite Hks; bind_step; [|done].
  by rewrite (traverse_allotted share steps perc ks Hks).
Qed.

Lemma between_by_cons2 (alloc : Z -> Z) (a b : RGB * Z) (stops : list (RGB * Z)) :
  between_by alloc (a :: b :: stops)
  = g ← gradient a.1 b.1 (alloc (b.2 - a.2));
    rest ← between_by alloc (b :: stops);
    Ok (g ++ rest).
Proof. reflexivity. Qed.

Lemma add_middle_between_by (alloc : Z -> Z) (pre stops : list (RGB * Z))
    (acc : list RGB) :
  for_in (enumerate (map alloc (diffs (map snd stops))) (Z.of_nat (length pre)))
    (fun '(i, steps) result =>
       a ← py_index (pre ++ stops) i;
       b ← py_index (pre ++ stops) (i + 1);
       g ← gradient a.1 b.1 steps;
       Ok (result ++ g))
    acc
  = mid ← between_by alloc stops; Ok (acc ++ mid).
Proof.
  revert pre acc. induction stops as [|a stops IH]; intros pre acc.
  - simpl. by rewrite app_nil_r.
  - destruct stops as [|b stops].
    + simpl. by rewrite app_nil_r.
    + change (diffs (map snd (a :: b :: stops)))
        with ((b.2 - a.2) :: diffs (map snd (b :: stops))).
      rewrite map_cons, between_by_cons2. cbn [enumerate for_in].
      rewrite py_index_middle. bind_step.
      assert (py_index (pre ++ a :: b :: stops) (Z.of_nat (length pre) + 1) = Ok b) as ->.
      { replace (pre ++ a :: b :: stops) with ((pre ++ [a]) ++ b :: stops)
          by (by rewrite <- app_assoc).
        replace (Z.of_nat (length pre) + 1) with (Z.of_nat (length (pre ++ [a])))
          by (rewrite length_app; simpl; lia).
        apply py_index_middle. }
      bind_step.
      destruct (gradient a.1 b.1 (alloc (b.2 - a.2))) as [g|e];
        bind_step; [|reflexivity].
      pose proof (IH (pre ++ [a]) (acc ++ g)) as IH'.
      rewrite length_app, Nat2Z.inj_add in IH'.
      change (Z.of_nat (length [a])) with 1 in IH'.
      rewrite <- app_assoc in IH'. change ([a] ++ b :: stops) with (a :: b :: stops) in IH'.
      rewrite IH'.
      destruct (between_by alloc (b :: stops)) as [mid|e]; bind_step;
        [|reflexivity].
      by rewrite <- app_assoc.
Qed.

Lemma add_middle_stops_by (alloc : Z -> Z) (stops : list (RGB * Z)) (acc : list RGB) :
  add_middle stops (map alloc (diffs (map snd stops))) acc
  = mid ← between_by alloc stops; Ok (acc ++ mid).
Proof. apply (add_middle_between_by alloc [] stops acc). Qed.

Lemma adv_gradient_by_empty (share : Z -> Z -> Z -> result Z) (steps : Z) :
  adv_gradient_by share [] steps = Err IndexError.
Proof. reflexivity. Qed.

(** What [adv_gradient_by] does on stops whose order is known: the shares
    of all the spans are computed first, and an exception there is the
    outcome; then come the leading run, the gradients between the stops
    and the trailing run. *)
Lemma adv_gradient_by_stops (share : Z -> Z -> Z -> result Z)
    (colors : list (RGB * Z)) (steps : Z) (s0 : RGB * Z) (rest : list (RGB * Z)) :
  py_sorted snd colors = s0 :: rest ->
  adv_gradient_by share colors steps
  = ks ← shares share steps (diffs (marks (s0 :: rest)));
    mid ← between_by (allotted share steps) (s0 :: rest);
    Ok (leading_run_by (allotted share steps) s0 ++ mid
        ++ trailing_run_by (allotted share steps) (List.last rest s0)).
Proof.
  intros Hsorted. unfold adv_gradient_by. rewrite Hsorted.
  rewrite py_index_0, py_index_neg1. bind_step.
  rewrite diffs_marks.
  set (sl := List.last rest s0).
  assert (List.last (map snd rest) s0.2 = sl.2) as Hlast by apply last_map_snd.
  unfold leading_run_by, trailing_run_by.
  destruct (Z.eqb_spec s0.2 0) as [H0|H0]; destruct (Z.eqb_spec sl.2 100) as [Hl|Hl];
    cbn [negb].
  - change ([] ++ map snd (s0 :: rest)) with (s0.2 :: map snd rest).
    rewrite perc_loop_marks. bind_step.
    rewrite steps_per_loop_by by (rewrite py_sum_diffs; lia).
    rewrite app_nil_r. cbn [app].
    change (s0.2 :: map snd rest) with (map snd (s0 :: rest)).
    destruct (shares share steps (diffs (map snd (s0 :: rest)))) as [ks|e];
      bind_step; [|done].
    rewrite add_middle_stops_by.
    destruct (between_by (allotted share steps) (s0 :: rest)) as [mid|e]; bind_step; [|done].
    by rewrite app_nil_r.
  - change (([] ++ map snd (s0 :: rest)) ++ [100])
      with (s0.2 :: (map snd rest ++ [100])).
    rewrite perc_loop_marks. bind_step.
    change (s0.2 :: (map snd rest ++ [100])) with ((s0.2 :: map snd rest) ++ [100]).
    rewrite diffs_snoc, Hlast.
    rewrite steps_per_loop_by
      by (rewrite py_sum_app, py_sum_diffs, Hlast; unfold py_sum; simpl; lia).
    cbn [app].
    change (s0.2 :: map snd rest) with (map snd (s0 :: rest)).
    destruct (shares share steps (diffs (map snd (s0 :: rest)) ++ [100 - sl.2]))
      as [ks|e]; bind_step; [|done].
    rewrite map_app. cbn [map].
    rewrite py_pop_last. bind_step.
    rewrite add_middle_stops_by.
    destruct (between_by (allotted share steps) (s0 :: rest)) as [mid|e]; bind_step; [|done].
    rewrite py_index_last. bind_step.
    by rewrite (add_run_replicate _ _ _ sl) by apply py_index_neg1.
  - change ([0] ++ map snd (s0 :: rest)) with (0 :: s0.2 :: map snd rest).
    rewrite perc_loop_marks. bind_step.
    rewrite steps_per_loop_by by (rewrite py_sum_diffs, last_cons_default; lia).
    rewrite app_nil_r.
    change (diffs (0 :: s0.2 :: map snd rest))
      with ([s0.2 - 0] ++ diffs (map snd (s0 :: rest))).
    destruct (shares share steps ([s0.2 - 0] ++ diffs (map snd (s0 :: rest))))
      as [ks|e]; bind_step; [|done].
    cbn [app]. rewrite map_cons, py_index_0. bind_step.
    rewrite (add_run_replicate _ _ _ s0) by apply py_index_0. bind_step.
    rewrite py_pop_0. bind_step.
    rewrite add_middle_stops_by.
    destruct (between_by (allotted share steps) (s0 :: rest)) as [mid|e]; bind_step; [|done].
    by rewrite app_nil_r.
  - change (([0] ++ map snd (s0 :: rest)) ++ [100])
      with (0 :: ((s0.2 :: map snd rest) ++ [100])).
    rewrite perc_loop_marks. bind_step.
    change (diffs (0 :: (s0.2 :: map snd rest) ++ [100]))
      with ((s0.2 - 0) :: diffs ((s0.2 :: map snd rest) ++ [100])).
    rewrite diffs_snoc, Hlast.
    rewrite steps_per_loop_by
      by (rewrite py_sum_cons, py_sum_app, py_sum_diffs, Hlast; unfold py_sum; simpl; lia).
    change (s0.2 :: map snd rest) with (map snd (s0 :: rest)).
    change ([s0.2 - 0] ++ diffs (map snd (s0 :: rest)) ++ [100 - sl.2])
      with ((s0.2 - 0) :: diffs (map snd (s0 :: rest)) ++ [100 - sl.2]).
    destruct (shares share steps
                ((s0.2 - 0) :: diffs (map snd (s0 :: rest)) ++ [100 - sl.2]))
      as [ks|e]; bind_step; [|done].
    rewrite map_cons, map_app. cbn [map].
    rewrite py_index_0. bind_step.
    rewrite (add_run_replicate _ _ _ s0) by apply py_index_0. bind_step.
    rewrite py_pop_0. bind_step.
    rewrite py_pop_last. bind_step.
    rewrite add_middle_stops_by.
    destruct (between_by (allotted share steps) (s0 :: rest)) as [mid|e]; bind_step; [|done].
    rewrite py_index_last. bind_step.
    rewrite (add_run_replicate _ _ _ sl) by apply py_index_neg1.
    by rewrite <- app_assoc.
Qed.

Lemma between_by_total (alloc : Z -> Z) (stops : list (RGB * Z)) :
  Forall (fun d => alloc d <> 1) (diffs (map snd stops)) ->
  exists mid, between_by alloc stops = Ok mid.
Proof.
  induction stops as [|a stops IH]; [by eexists|].
  destruct stops as [|b stops]; [by eexists|].
  change (diffs (map snd (a :: b :: stops)))
    with ((b.2 - a.2) :: diffs (map snd (b :: stops))).
  intros [Hab Hrest]%Forall_cons. rewrite between_by_cons2.
  destruct (gradient_total a.1 b.1 _ Hab) as [g ->].
  destruct (IH Hrest) as [mid ->]. by eexists.
Qed.

Lemma gradient_error (color1 color2 : RGB) (steps : Z) (e : exn) :
  gradient color1 color2 steps = Err e -> steps = 1 /\ e = ZeroDivisionError.
Proof.
  intros He. destruct (Z.eq_dec steps 1) as [->|Hs].
  - rewrite gradient_one_step in He. by injection He as <-.
  - destruct (gradient_total color1 color2 steps Hs) as [l Hl]. congruence.
Qed.

Lemma between_by_fails (alloc : Z -> Z) (stops : list (RGB * Z)) :
  Exists (fun d => alloc d = 1) (diffs (map snd stops)) ->
  between_by alloc stops = Err ZeroDivisionError.
Proof.
  induction stops as [|a stops IH]; [by intros H%Exists_nil|].
  destruct stops as [|b stops]; [by intros H%Exists_nil|].
  change (diffs (map snd (a :: b :: stops)))
    with ((b.2 - a.2) :: diffs (map snd (b :: stops))).
  rewrite between_by_cons2. intros [H1|Hrest]%Exists_cons.
  - by rewrite H1, gradient_one_step.
  - destruct (gradient a.1 b.1 (alloc (b.2 - a.2))) as [g|e] eqn:Hg.
    + bind_step. by rewrite (IH Hrest).
    + apply gradient_error in Hg as [_ ->]. reflexivity.
Qed.



(** On that input Python holds the first colour for 11 steps, where exact
    arithmetic would give 10. *)
Example adv_gradient_b64_leading_run :
  allotted share_b64 75 (14 - 0) = 11 /\ allocation 75 (14 - 0) = 10.
Proof. split; vm_compute; reflexivity. Qed.

(** * Further properties *)

(** ** gradient: the samples *)

Lemma sample_channel_same (a i steps : Z) :
  steps <> 1 -> sample_channel a a i steps = a.
Proof.
  intros Hs. unfold sample_channel. etrans; [|apply (Qtrunc_Z a)].
  apply Qtrunc_comp. field. apply inject_Z_neq0. lia.
Qed.

Lemma map_const_range {A : Type} (x : A) (n : Z) :
  map (fun _ => x) (range n) = replicate (Z.to_nat n) x.
Proof.
  unfold range. rewrite map_map. generalize 0%nat.
  induction (Z.to_nat n) as [|k IH]; intros s; simpl; [reflexivity | by rewrite IH].
Qed.

(** X1. A gradient from a colour to itself repeats the colour, for
    channels in 0..255 and any step count but 1.  (In binary64 as well:
    [rounded_channel_same] below.) *)
Theorem gradient_same_color (r g b steps : Z) :
  0 <= r <= 255 -> 0 <= g <= 255 -> 0 <= b <= 255 ->
  steps <> 1 ->
  gradient (rgb r g b) (rgb r g b) steps = Ok (replicate (Z.to_nat steps) (rgb r g b)).
Proof.
  intros _ _ _ Hs. rewrite gradient_int by done. f_equal.
  rewrite <- map_const_range. apply map_ext_in. intros i _.
  by rewrite !sample_channel_same.
Qed.

Lemma gradient_same_color_witness :
  gradient (rgb 10 20 30) (rgb 10 20 30) 4 = Ok (replicate (Z.to_nat 4) (rgb 10 20 30)).
Proof. apply (gradient_same_color 10 20 30 4); lia. Defined.

Lemma sample_channel_mono (a b i j steps : Z) :
  2 <= steps -> a <= b -> i <= j ->
  sample_channel a b i steps <= sample_channel a b j steps.
Proof.
  intros Hs Hab Hij. rewrite !sample_channel_quot by done.
  apply Z.quot_le_mono; nia.
Qed.

Lemma sample_channel_anti (a b i j steps : Z) :
  2 <= steps -> b <= a -> i <= j ->
  sample_channel a b j steps <= sample_channel a b i steps.
Proof.
  intros Hs Hab Hij. rewrite !sample_channel_quot by done.
  apply Z.quot_le_mono; nia.
Qed.

Lemma sample_channel_bounds (a b i steps : Z) :
  2 <= steps -> 0 <= i < steps ->
  Z.min a b <= sample_channel a b i steps <= Z.max a b.
Proof.
  intros Hs Hi.
  pose proof (sample_channel_first a b steps ltac:(lia)) as H0.
  pose proof (sample_channel_last a b steps ltac:(lia)) as H1.
  destruct (Z.le_ge_cases a b) as [Hab|Hab].
  - pose proof (sample_channel_mono a b 0 i steps Hs Hab ltac:(lia)).
    pose proof (sample_channel_mono a b i (steps - 1) steps Hs Hab ltac:(lia)). lia.
  - pose proof (sample_channel_anti a b 0 i steps Hs Hab ltac:(lia)).
    pose proof (sample_channel_anti a b i (steps - 1) steps Hs Hab ltac:(lia)). lia.
Qed.

Lemma gradient_int_lookup (r1 g1 b1 r2 g2 b2 steps : Z) (l : list RGB) (k : nat) (c : RGB) :
  2 <= steps ->
  gradient (rgb r1 g1 b1) (rgb r2 g2 b2) steps = Ok l ->
  l !! k = Some c ->
  0 <= Z.of_nat k < steps
  /\ c = rgb (sample_channel r1 r2 (Z.of_nat k) steps)
             (sample_channel g1 g2 (Z.of_nat k) steps)
             (sample_channel b1 b2 (Z.of_nat k) steps).
Proof.
  intros Hs Hl Hk. rewrite gradient_int in Hl by lia. injection Hl as <-.
  rewrite list_lookup_fmap in Hk.
  destruct (range steps !! k) as [i|] eqn:Hi; [|discriminate].
  injection Hk as <-.
  assert (0 <= Z.of_nat k < steps) as Hb.
  { apply lookup_lt_Some in Hi. rewrite range_length in Hi. lia. }
  split; [exact Hb|].
  pose proof (range_lookup steps (Z.of_nat k) Hb) as Hi'.
  rewrite Nat2Z.id in Hi'. by replace i with (Z.of_nat k) by congruence.
Qed.

(** X2. For end colours with channels in 0..255 and at most 2^43 steps,
    every colour of a gradient lies between the two end colours, channel
    by channel; so its channels are in 0..255 too. *)
Theorem gradient_between_ends (r1 g1 b1 r2 g2 b2 steps : Z) (l : list RGB) (c : RGB) :
  0 <= r1 <= 255 -> 0 <= g1 <= 255 -> 0 <= b1 <= 255 ->
  0 <= r2 <= 255 -> 0 <= g2 <= 255 -> 0 <= b2 <= 255 ->
  2 <= steps <= 8796093022208 ->
  gradient (rgb r1 g1 b1) (rgb r2 g2 b2) steps = Ok l ->
  c ∈ l ->
  exists r g b : Z,
    c = rgb r g b
    /\ Z.min r1 r2 <= r <= Z.max r1 r2
    /\ Z.min g1 g2 <= g <= Z.max g1 g2
    /\ Z.min b1 b2 <= b <= Z.max b1 b2
    /\ 0 <= r <= 255 /\ 0 <= g <= 255 /\ 0 <= b <= 255.
Proof.
  intros Hr1 Hg1 Hb1 Hr2 Hg2 Hb2 [Hs _] Hl [k Hk]%list_elem_of_lookup.
  destruct (gradient_int_lookup _ _ _ _ _ _ _ _ _ _ Hs Hl Hk) as [Hb ->].
  pose proof (sample_channel_bounds r1 r2 (Z.of_nat k) steps ltac:(lia) ltac:(lia)).
  pose proof (sample_channel_bounds g1 g2 (Z.of_nat k) steps ltac:(lia) ltac:(lia)).
  pose proof (sample_channel_bounds b1 b2 (Z.of_nat k) steps ltac:(lia) ltac:(lia)).
  eexists _, _, _. split; [reflexivity|]. lia.
Qed.

Lemma gradient_between_ends_witness :
  exists r g b : Z,
    rgb 127 127 127 = rgb r g b
    /\ Z.min 0 255 <= r <= Z.max 0 255
    /\ Z.min 0 255 <= g <= Z.max 0 255
    /\ Z.min 0 255 <= b <= Z.max 0 255
    /\ 0 <= r <= 255 /\ 0 <= g <= 255 /\ 0 <= b <= 255.
Proof.
  apply (gradient_between_ends 0 0 0 255 255 255 3
           [rgb 0 0 0; rgb 127 127 127; rgb 255 255 255] (rgb 127 127 127));
    try lia.
  - reflexivity.
  - apply list_elem_of_further, list_elem_of_here.
Defined.

(** X3. Along a gradient a channel never turns back: it rises (not strictly)
    when the end value is the larger one and falls when it is the
    smaller. *)
Theorem gradient_monotone (r1 g1 b1 r2 g2 b2 steps : Z) (l : list RGB)
    (i j : nat) (c d : RGB) :
  2 <= steps ->
  gradient (rgb r1 g1 b1) (rgb r2 g2 b2) steps = Ok l ->
  l !! i = Some c -> l !! j = Some d -> (i <= j)%nat ->
  (r1 <= r2 -> py_int (red c) <= py_int (red d))
  /\ (r2 <= r1 -> py_int (red d) <= py_int (red c))
  /\ (g1 <= g2 -> py_int (green c) <= py_int (green d))
  /\ (g2 <= g1 -> py_int (green d) <= py_int (green c))
  /\ (b1 <= b2 -> py_int (blue c) <= py_int (blue d))
  /\ (b2 <= b1 -> py_int (blue d) <= py_int (blue c)).
Proof.
  intros Hs Hl Hi Hj Hij.
  destruct (gradient_int_lookup _ _ _ _ _ _ _ _ _ _ Hs Hl Hi) as [_ ->].
  destruct (gradient_int_lookup _ _ _ _ _ _ _ _ _ _ Hs Hl Hj) as [_ ->].
  simpl. repeat split; intros H;
    first [ apply sample_channel_mono; lia | apply sample_channel_anti; lia ].
Qed.

Lemma gradient_monotone_witness :
  py_int (red (rgb 0 0 255)) <= py_int (red (rgb 127 0 127))
  /\ py_int (blue (rgb 127 0 127)) <= py_int (blue (rgb 0 0 255)).
Proof.
  pose proof (gradient_monotone 0 0 255 255 0 0 3
                [rgb 0 0 255; rgb 127 0 127; rgb 255 0 0] 0 1
                (rgb 0 0 255) (rgb 127 0 127)
                ltac:(lia) eq_refl eq_refl eq_refl ltac:(lia))
    as (Hr & _ & _ & _ & _ & Hb).
  split; [apply Hr | apply Hb]; lia.
Defined.

Lemma sample_channel_swap (a b i steps : Z) :
  steps <> 1 ->
  sample_channel b a (steps - 1 - i) steps = sample_channel a b i steps.
Proof.
  intros Hs. unfold sample_channel. apply Qtrunc_comp.
  rewrite !inject_Z_sub. change (inject_Z 1) with 1%Q.
  pose proof (inject_Z_neq0 (steps - 1) ltac:(lia)) as Hd.
  rewrite inject_Z_sub in Hd. change (inject_Z 1) with 1%Q in Hd.
  by field.
Qed.

Lemma reverse_range (n : Z) :
  reverse (range n) = map (fun i => n - 1 - i) (range n).
Proof.
  apply list_eq. intros k.
  destruct (decide (k < Z.to_nat n)%nat) as [Hk|Hk].
  - rewrite reverse_lookup by (by rewrite range_length).
    rewrite range_length, list_lookup_fmap.
    replace k with (Z.to_nat (Z.of_nat k)) at 2 by lia.
    rewrite range_lookup by lia.
    replace (Z.to_nat n - S k)%nat with (Z.to_nat (n - 1 - Z.of_nat k)) by lia.
    by rewrite range_lookup by lia.
  - rewrite !lookup_ge_None_2; [done| |].
    + rewrite length_map, range_length. lia.
    + rewrite length_reverse, range_length. lia.
Qed.

(** X4. For end colours with channels in 0..255 and at most 2^43 steps,
    swapping the two end colours reverses the gradient.  (In binary64 as
    well: [rounded_channel_swap] below.) *)
Theorem gradient_reverse (r1 g1 b1 r2 g2 b2 steps : Z) (l : list RGB) :
  0 <= r1 <= 255 -> 0 <= g1 <= 255 -> 0 <= b1 <= 255 ->
  0 <= r2 <= 255 -> 0 <= g2 <= 255 -> 0 <= b2 <= 255 ->
  steps <= 8796093022208 ->
  gradient (rgb r1 g1 b1) (rgb r2 g2 b2) steps = Ok l ->
  gradient (rgb r2 g2 b2) (rgb r1 g1 b1) steps = Ok (reverse l).
Proof.
  intros _ _ _ _ _ _ _ Hl.
  assert (steps <> 1) as Hs.
  { intros ->. by rewrite gradient_one_step in Hl. }
  rewrite gradient_int in Hl by done. injection Hl as <-.
  rewrite gradient_int by done. f_equal.
  etrans; [|apply (fmap_reverse _ (range steps))].
  rewrite reverse_range. etrans; [|symmetry; apply map_map].
  apply map_ext. intros i. by rewrite !sample_channel_swap.
Qed.

Lemma gradient_reverse_witness :
  gradient (rgb 255 255 255) (rgb 0 0 0) 3
  = Ok (reverse [rgb 0 0 0; rgb 127 127 127; rgb 255 255 255]).
Proof. apply (gradient_reverse 0 0 0 255 255 255 3); (lia || reflexivity). Defined.

Section finite_precision_ends.

(** Rounding to the nearest binary64 number, as in [finite_precision]. *)
Variable fl : Q -> Q.
Hypothesis fl_proper : forall p q : Q, p == q -> fl p == fl q.
Hypothesis fl_int : forall z : Z, -1024 <= z <= 1024 -> fl (inject_Z z) == inject_Z z.
Hypothesis fl_near :
  forall q : Q, (-1024 <= q <= 1024)%Q ->
    (- (1 # 17592186044416) <= fl q - q <= 1 # 17592186044416)%Q.

(** With equal ends the quotient is the float zero and the sum is the
    channel, whatever the step count. *)
Lemma rounded_channel_same (a i steps : Z) :
  0 <= a <= 255 -> rounded_channel fl a a i steps = a.
Proof.
  intros Ha. unfold rounded_channel.
  assert (inject_Z ((a - a) * i) / inject_Z (steps - 1) == inject_Z 0)%Q as Hq.
  { replace ((a - a) * i) with 0 by lia. change (inject_Z 0) with 0%Q.
    unfold Qdiv. ring. }
  assert (fl (inject_Z ((a - a) * i) / inject_Z (steps - 1)) == 0)%Q as Hq'.
  { rewrite (fl_proper _ _ Hq). change 0%Q with (inject_Z 0). apply fl_int. lia. }
  assert (fl (inject_Z a + fl (inject_Z ((a - a) * i) / inject_Z (steps - 1)))
          == inject_Z a)%Q as Hz.
  { rewrite (fl_proper _ (inject_Z a)); [apply fl_int; lia|]. rewrite Hq'. ring. }
  rewrite (Qtrunc_comp _ _ Hz). apply Qtrunc_Z.
Qed.

(** The sample at index [i] of one gradient is the sample at index
    [steps - 1 - i] of the gradient between the swapped ends, rounded or
    not. *)
Lemma rounded_channel_swap (a b i steps : Z) :
  0 <= a <= 255 -> 0 <= b <= 255 ->
  2 <= steps <= 8796093022208 ->
  0 <= i < steps ->
  rounded_channel fl b a (steps - 1 - i) steps = rounded_channel fl a b i steps.
Proof.
  intros Ha Hb Hs Hi.
  rewrite !(rounded_channel_exact fl fl_proper fl_int fl_near) by lia.
  apply sample_channel_swap. lia.
Qed.

End finite_precision_ends.

(** X5. Between colours with channels in 0..255 the only way [gradient]
    fails is the division by zero at one step. *)
Theorem gradient_fails_iff (color1 color2 : RGB) (steps : Z) (e : exn) :
  rgb8 color1 -> rgb8 color2 ->
  gradient color1 color2 steps = Err e <-> steps = 1 /\ e = ZeroDivisionError.
Proof.
  intros _ _. split; [apply gradient_error|]. intros [-> ->]. apply gradient_one_step.
Qed.

Lemma gradient_fails_iff_witness :
  gradient (rgb 255 0 0) (rgb 0 0 255) 1 = Err ZeroDivisionError
  <-> 1 = 1 /\ ZeroDivisionError = ZeroDivisionError.
Proof.
  apply (gradient_fails_iff (rgb 255 0 0) (rgb 0 0 255) 1 ZeroDivisionError).
  - exists 255, 0, 0. repeat split; lia.
  - exists 0, 0, 255. repeat split; lia.
Defined.

(** ** adv_gradient: when it fails, what it returns *)

(** X6. For stops whose colours have channels in 0..255, and whatever way
    the shares are rounded, [adv_gradient] fails in three ways only: on no
    stops at all, with [IndexError]; where the share of a span cannot be
    computed, with the exception of that computation ([OverflowError] in
    Python, on a step count too large for a float); and when two
    neighbouring stops are allotted exactly one step, with the
    [ZeroDivisionError] of [gradient]. *)
Theorem adv_gradient_fails_iff (share : Z -> Z -> Z -> result Z)
    (colors : list (RGB * Z)) (steps : Z) (e : exn) :
  Forall (fun s : RGB * Z => rgb8 s.1) colors ->
  adv_gradient_by share colors steps = Err e
  <-> (colors = [] /\ e = IndexError)
      \/ shares share steps (diffs (marks (py_sorted snd colors))) = Err e
      \/ ((exists ks, shares share steps (diffs (marks (py_sorted snd colors))) = Ok ks)
          /\ e = ZeroDivisionError
          /\ Exists (fun d => allotted share steps d = 1)
                    (diffs (map snd (py_sorted snd colors)))).
Proof.
  intros _. destruct colors as [|c colors].
  - rewrite adv_gradient_by_empty. split.
    + intros [= <-]. by left.
    + intros [[_ ->]|[H|(_ & _ & H)]]; [done | discriminate H |].
      by apply Exists_nil in H.
  - destruct (py_sorted_nonempty snd (c :: colors)) as (s0 & rest & Hsorted); [done|].
    rewrite (adv_gradient_by_stops share _ steps s0 rest Hsorted), Hsorted.
    destruct (shares share steps (diffs (marks (s0 :: rest)))) as [ks|e'];
      bind_step.
    + destruct (decide (Exists (fun d => allotted share steps d = 1)
                               (diffs (map snd (s0 :: rest))))) as [Hex|Hnex].
      * rewrite (between_by_fails _ _ Hex). bind_step. split.
        -- intros [= <-]. right. right. split; [by eexists | done].
        -- intros [[? _]|[?|(_ & -> & _)]]; done.
      * apply not_Exists_Forall in Hnex; [|intros d; apply Z.eq_dec].
        destruct (between_by_total (allotted share steps) (s0 :: rest)) as [mid ->].
        { eapply Forall_impl; [exact Hnex|]. simpl. intros d Hd. exact Hd. }
        bind_step. split; [discriminate|].
        intros [[? _]|[?|(_ & _ & Hex)]]; [done..|].
        exfalso. rewrite Forall_forall in Hnex.
        apply Exists_exists in Hex as (d & Hd & H1). by apply (Hnex d).
    + split.
      * intros [= <-]. right. by left.
      * intros [[? _]|[[= ->]|([ks ?] & _)]]; done.
Qed.

Lemma adv_gradient_fails_iff_witness :
  adv_gradient_by share_b64
    [(rgb 255 0 0, 0); (rgb 0 255 0, 50); (rgb 0 0 255, 100)] 2 = Err ZeroDivisionError
  <-> ([(rgb 255 0 0, 0); (rgb 0 255 0, 50); (rgb 0 0 255, 100)] = []
       /\ ZeroDivisionError = IndexError)
      \/ shares share_b64 2
           (diffs (marks (py_sorted snd
              [(rgb 255 0 0, 0); (rgb 0 255 0, 50); (rgb 0 0 255, 100)])))
         = Err ZeroDivisionError
      \/ ((exists ks,
             shares share_b64 2
               (diffs (marks (py_sorted snd
                  [(rgb 255 0 0, 0); (rgb 0 255 0, 50); (rgb 0 0 255, 100)])))
             = Ok ks)
          /\ ZeroDivisionError = ZeroDivisionError
          /\ Exists (fun d => allotted share_b64 2 d = 1)
                    (diffs (map snd (py_sorted snd
                       [(rgb 255 0 0, 0); (rgb 0 255 0, 50); (rgb 0 0 255, 100)])))).
Proof.
  apply (adv_gradient_fails_iff share_b64
           [(rgb 255 0 0, 0); (rgb 0 255 0, 50); (rgb 0 0 255, 100)] 2
           ZeroDivisionError).
  apply Forall_cons. split; [exists 255, 0, 0; repeat split; lia|].
  apply Forall_cons. split; [exists 0, 255, 0; repeat split; lia|].
  apply Forall_cons. split; [exists 0, 0, 255; repeat split; lia|].
  apply Forall_nil_2.
Defined.

(** A step count too large for a float: Python raises [OverflowError]
    before any colour is made. *)
Example adv_gradient_b64_overflow :
  adv_gradient_by share_b64 [(rgb 255 0 0, 0); (rgb 0 0 255, 100)] (10 ^ 400)
  = Err OverflowError.
Proof. vm_compute. reflexivity. Qed.

(** X7. One stop alone is never interpolated, whatever way the shares are
    rounded: when the shares of the part before the stop (none when it is
    at 0) and of the part after it (none when it is at 100) are computed,
    the result is the colour of the stop, once for every step allotted to
    the two parts; otherwise the exception of the share is the outcome. *)
Theorem adv_gradient_single_stop (share : Z -> Z -> Z -> result Z)
    (c : RGB) (p steps : Z) :
  adv_gradient_by share [(c, p)] steps
  = ks ← shares share steps ((if p =? 0 then [] else [p - 0])
                             ++ (if p =? 100 then [] else [100 - p]));
    Ok (replicate (sum_list (Z.to_nat <$> ks)) c).
Proof.
  rewrite (adv_gradient_by_stops share _ steps (c, p) []) by reflexivity.
  rewrite diffs_marks. cbn [List.last map diffs between_by fst snd].
  unfold leading_run_by, trailing_run_by. cbn [fst snd app].
  destruct (p =? 0), (p =? 100); cbn [app];
    match goal with
    | |- context [shares share steps ?l] =>
        destruct (shares share steps l) as [ks|e] eqn:Hks
    end; bind_step; try reflexivity;
    apply traverse_allotted in Hks; subst ks; cbn [fmap list_fmap map sum_list sum_list_with];
    rewrite ?app_nil_r, ?Nat.add_0_r, ?replicate_add; reflexivity.
Qed.

(** Seven percent of 150 steps and the other 93: Python allots 11 and 140
    steps, and returns 151 colours. *)
Example adv_gradient_b64_single_stop :
  adv_gradient_by share_b64 [(rgb 255 0 0, 7)] 150 = Ok (replicate 151 (rgb 255 0 0)).
Proof. vm_compute. reflexivity. Qed.

Section sorted_unique.
Context {A : Type} (key : A -> Z).

(** With keys that are all different, a list has one arrangement in order
    of the key. *)
Lemma sorted_perm_unique (l l' : list A) :
  Sorted (fun a b => key a <= key b) l ->
  Sorted (fun a b => key a <= key b) l' ->
  l ≡ₚ l' ->
  NoDup (map key l) ->
  l = l'.
Proof.
  intros Hl Hl'.
  apply Sorted_StronglySorted in Hl; [|intros a b c; lia].
  apply Sorted_StronglySorted in Hl'; [|intros a b c; lia].
  revert l' Hl'. induction Hl as [|x xs Hxs IH Hx]; intros l' Hl' Hperm Hnd.
  - by apply Permutation_nil_l in Hperm.
  - destruct Hl' as [|y ys Hys Hy].
    { by apply Permutation_nil_r in Hperm. }
    apply NoDup_cons in Hnd as [Hkx Hnd].
    assert (x = y) as <-.
    { assert (y ∈ x :: xs) as [->|Hyin]%elem_of_cons
        by (rewrite Hperm; apply list_elem_of_here); [done|].
      assert (x ∈ y :: ys) as [->|Hxin]%elem_of_cons
        by (rewrite <- Hperm; apply list_elem_of_here); [done|].
      rewrite Forall_forall in Hx, Hy.
      pose proof (Hx y Hyin) as H1. pose proof (Hy x Hxin) as H2.
      exfalso. apply Hkx. replace (key x) with (key y) by lia.
      by apply (list_elem_of_fmap_2 key). }
    f_equal. apply IH; [done | by apply (Permutation_cons_inv Hperm) | done].
Qed.

Lemma py_sorted_perm_eq (l l' : list A) :
  l ≡ₚ l' -> NoDup (map key l) -> py_sorted key l = py_sorted key l'.
Proof.
  intros Hperm Hnd. apply sorted_perm_unique.
  - apply py_sorted_sorted.
  - apply py_sorted_sorted.
  - by rewrite !py_sorted_perm.
  - change (NoDup (key <$> py_sorted key l)). by rewrite py_sorted_perm.
Qed.

End sorted_unique.

(** X8. The order in which stops with different percentages are given does not
    matter. *)
Theorem adv_gradient_permutation (colors colors' : list (RGB * Z)) (steps : Z) :
  colors ≡ₚ colors' ->
  NoDup (map snd colors) ->
  adv_gradient colors steps = adv_gradient colors' steps.
Proof.
  intros Hperm Hnd. unfold adv_gradient.
  by rewrite (py_sorted_perm_eq snd colors colors' Hperm Hnd).
Qed.

Lemma adv_gradient_permutation_witness :
  adv_gradient [(rgb 0 0 255, 70); (rgb 255 0 0, 10); (rgb 0 255 0, 30)] 20
  = adv_gradient [(rgb 255 0 0, 10); (rgb 0 255 0, 30); (rgb 0 0 255, 70)] 20.
Proof.
  apply (adv_gradient_permutation
           [(rgb 0 0 255, 70); (rgb 255 0 0, 10); (rgb 0 255 0, 30)]
           [(rgb 255 0 0, 10); (rgb 0 255 0, 30); (rgb 0 0 255, 70)] 20).
  - etrans; [apply perm_swap|]. apply perm_skip, perm_swap.
  - apply (bool_decide_unpack _). reflexivity.
Defined.

(** With equal percentages the order does matter: the stable sort keeps
    the stops as given, and the gradient runs between them that way. *)
Example adv_gradient_equal_percentages :
  adv_gradient [(rgb 255 0 0, 50); (rgb 0 0 255, 50)] 10
  <> adv_gradient [(rgb 0 0 255, 50); (rgb 255 0 0, 50)] 10.
Proof. vm_compute. discriminate. Qed.

(** ** RGB: to_hex, averaging, records *)

Lemma range_In (n z : Z) : 0 <= z < n -> In z (range n).
Proof.
  intros Hz. unfold range. apply in_map_iff. exists (Z.to_nat z).
  split; [lia|]. apply in_seq. lia.
Qed.

Lemma format_02X_byte (z : Z) :
  0 <= z <= 255 ->
  exists s, format_02X (PInt z) = Ok s /\ String.length s = 2%nat /\ hex2_value s = Some z.
Proof.
  intros Hz.
  pose (check := fun z : Z =>
    match format_02X (PInt z) with
    | Ok s => (String.length s =? 2)%nat
              && match hex2_value s with Some v => v =? z | None => false end
    | Err _ => false
    end).
  assert (forallb check (range 256) = true) as Hall by (vm_compute; reflexivity).
  rewrite forallb_forall in Hall.
  specialize (Hall z (range_In 256 z ltac:(lia))). unfold check in Hall.
  destruct (format_02X (PInt z)) as [s|e]; [|discriminate].
  exists s. apply andb_prop in Hall as [Hlen Hval].
  apply Nat.eqb_eq in Hlen.
  destruct (hex2_value s) as [v|]; [|discriminate].
  apply Z.eqb_eq in Hval. by subst.
Qed.

Lemma string_app_inj (a a' b b' : string) :
  String.length a = String.length a' -> (a +:+ b = a' +:+ b')%string -> a = a' /\ b = b'.
Proof.
  revert a'. induction a as [|c a IH]; intros [|c' a']; simpl; try discriminate.
  - done.
  - intros [= Hlen] [= -> Happ]. destruct (IH a' Hlen Happ) as [-> ->]. done.
Qed.

Lemma string_app_length (a b : string) :
  String.length (a +:+ b) = (String.length a + String.length b)%nat.
Proof. induction a as [|c a IH]; simpl; [done | by rewrite IH]. Qed.

(** X10. On 8-bit colours [to_hex] returns seven characters, [#] first, and
    tells any two colours apart. *)
Theorem to_hex_8bit (c c' : RGB) :
  rgb8 c -> rgb8 c' ->
  exists s s' : string,
    to_hex c = Ok s /\ to_hex c' = Ok s'
    /\ String.length s = 7%nat
    /\ String.get 0 s = Some "#"%char
    /\ (s = s' -> c = c').
Proof.
  intros (r & g & b & -> & Hr & Hg & Hb) (r' & g' & b' & -> & Hr' & Hg' & Hb').
  destruct (format_02X_byte r Hr) as (sr & Er & Lr & Vr).
  destruct (format_02X_byte g Hg) as (sg & Eg & Lg & Vg).
  destruct (format_02X_byte b Hb) as (sb & Eb & Lb & Vb).
  destruct (format_02X_byte r' Hr') as (sr' & Er' & Lr' & Vr').
  destruct (format_02X_byte g' Hg') as (sg' & Eg' & Lg' & Vg').
  destruct (format_02X_byte b' Hb') as (sb' & Eb' & Lb' & Vb').
  unfold to_hex, rgb. cbn [red green blue]. rewrite Er, Eg, Eb, Er', Eg', Eb'. bind_step.
  eexists _, _. split; [reflexivity|]. split; [reflexivity|].
  split; [by rewrite !string_app_length, Lr, Lg, Lb|].
  split; [reflexivity|].
  intros [= H].
  apply (string_app_inj sr sr') in H as [-> H]; [|congruence].
  apply (string_app_inj sg sg') in H as [-> ->]; [|congruence].
  congruence.
Qed.

Lemma to_hex_8bit_witness :
  exists s s' : string,
    to_hex (rgb 255 0 0) = Ok s /\ to_hex (rgb 0 0 255) = Ok s'
    /\ String.length s = 7%nat
    /\ String.get 0 s = Some "#"%char
    /\ (s = s' -> rgb 255 0 0 = rgb 0 0 255).
Proof.
  apply (to_hex_8bit (rgb 255 0 0) (rgb 0 0 255)).
  - exists 255, 0, 0. repeat split; lia.
  - exists 0, 0, 255. repeat split; lia.
Defined.

Example to_hex_red : to_hex (rgb 255 0 0) = Ok "#FF0000".
Proof. reflexivity. Qed.

(** X11. [to_hex], and so [str(...)] on a colour, succeeds exactly on integer
    channels: a channel that is a float raises [ValueError]. *)
Theorem to_hex_fails_iff (c : RGB) (e : exn) :
  to_hex c = Err e
  <-> e = ValueError
      /\ is_int (red c) && is_int (green c) && is_int (blue c) = false.
Proof.
  destruct c as [[r|r] [g|g] [b|b]]; unfold to_hex, format_02X; simpl;
    repeat match goal with
           | |- context [if ?t then _ else _] => destruct t
           end; simpl;
    split; try discriminate; try (intros [= <-]; done);
    try (intros [-> _]; reflexivity); try (intros [_ ?]; discriminate).
Qed.

(** X12. The colour [a + b] cannot be written in hexadecimal: its channels are
    floats, whatever [a] and [b] hold. *)
Theorem to_hex_of_sum (a b c : RGB) :
  RGB.add a (ORGB b) = Ok c -> to_hex c = Err ValueError.
Proof.
  unfold RGB.add, num_truediv. simpl. intros [= <-]. reflexivity.
Qed.

Lemma to_hex_of_sum_witness :
  to_hex (mkRGB (PFloat ((255 + 0) / 2)) (PFloat ((0 + 0) / 2)) (PFloat ((0 + 255) / 2)))
  = Err ValueError.
Proof. apply (to_hex_of_sum (rgb 255 0 0) (rgb 0 0 255)). reflexivity. Defined.

Lemma num_eqb_eq (a b : num) : num_eqb a b = true <-> num_val a == num_val b.
Proof. unfold num_eqb. apply Qeq_bool_iff. Qed.

(** In binary64 the half of a sum of two channels in 0..255 is exact. *)
Lemma mean_b64_exact (n : Z) :
  0 <= n <= 510 -> float_is (int_truediv n 2) (inject_Z n / 2) = true.
Proof.
  intros Hn.
  assert (forallb (fun n => float_is (int_truediv n 2) (inject_Z n / 2)) (range 511)
          = true) as Hall by (vm_compute; reflexivity).
  rewrite forallb_forall in Hall. apply Hall, range_In. lia.
Qed.

(** X13. On colours with channels in 0..255, averaging does not depend
    on the order of the two colours, and a colour averaged with itself
    compares equal to itself. *)
Theorem RGB_add_comm_idem (a b : RGB) :
  rgb8 a -> rgb8 b ->
  (exists c d : RGB,
     RGB.add a (ORGB b) = Ok c /\ RGB.add b (ORGB a) = Ok d /\ RGB.eq c d = true)
  /\ (exists c : RGB, RGB.add a (ORGB a) = Ok c /\ RGB.eq c a = true).
Proof.
  intros _ _. split.
  - eexists _, _. split; [reflexivity|]. split; [reflexivity|].
    unfold RGB.eq. simpl. rewrite !andb_true_iff, !num_eqb_eq. simpl.
    rewrite !num_val_add. repeat split; field.
  - eexists. split; [reflexivity|].
    unfold RGB.eq. simpl. rewrite !andb_true_iff, !num_eqb_eq. simpl.
    rewrite !num_val_add. repeat split; field.
Qed.

Lemma RGB_add_comm_idem_witness :
  (exists c d : RGB,
     RGB.add (rgb 255 0 0) (ORGB (rgb 0 0 255)) = Ok c
     /\ RGB.add (rgb 0 0 255) (ORGB (rgb 255 0 0)) = Ok d /\ RGB.eq c d = true)
  /\ (exists c : RGB,
        RGB.add (rgb 255 0 0) (ORGB (rgb 255 0 0)) = Ok c
        /\ RGB.eq c (rgb 255 0 0) = true).
Proof.
  apply (RGB_add_comm_idem (rgb 255 0 0) (rgb 0 0 255)).
  - exists 255, 0, 0. repeat split; lia.
  - exists 0, 0, 255. repeat split; lia.
Defined.

(** X14. [RGB.from_dict] reads the three keys and nothing else: it returns the
    colour they hold, and raises [KeyError] exactly when one is missing. *)
Theorem RGB_from_dict_spec (data : gmap string num) :
  (forall c : RGB,
     RGB.from_dict data = Ok c
     <-> data !! "red" = Some (red c) /\ data !! "green" = Some (green c)
         /\ data !! "blue" = Some (blue c))
  /\ (forall e : exn,
        RGB.from_dict data = Err e
        <-> e = KeyError
            /\ (data !! "red" = None \/ data !! "green" = None
                \/ data !! "blue" = None)).
Proof.
  unfold RGB.from_dict, dict_item.
  destruct (data !! "red") as [r|], (data !! "green") as [g|], (data !! "blue") as [b|];
    simpl; split.
  all: try (intros c; split; [discriminate | intros (? & ? & ?); discriminate]).
  all: try (intros e; split;
            [ intros [= <-]; split; [reflexivity | auto]
            | intros [-> _]; reflexivity ]).
  - intros [r' g' b']. simpl. split.
    + by intros [= -> -> ->].
    + by intros ([= ->] & [= ->] & [= ->]).
  - intros e. split; [discriminate|]. intros [_ [?|[?|?]]]; discriminate.
Qed.

(** ** Ansi: merging, records, setters *)

Lemma color_eq_default_false (c : color) :
  color_eq c (Named "default") = false -> c <> Named "default".
Proof. intros H Hc. apply color_eq_default in Hc. congruence. Qed.

Lemma merge_color_assoc (x y z : color) :
  (if color_eq (if color_eq x (Named "default") then y else x) (Named "default")
   then z else (if color_eq x (Named "default") then y else x))
  = (if color_eq x (Named "default")
     then (if color_eq y (Named "default") then z else y) else x).
Proof.
  destruct (color_eq x (Named "default")) eqn:Hx; [reflexivity|]. by rewrite Hx.
Qed.

(** X15. Merging is associative: [(a + b) + c] and [a + (b + c)] are the same
    descriptor. *)
Theorem Ansi_add_assoc (a b c : Ansi) :
  Ansi.add (Ansi.add a b) c = Ansi.add a (Ansi.add b c).
Proof.
  unfold Ansi.add, Ansi.init. simpl.
  rewrite !merge_color_assoc, !orb_assoc. reflexivity.
Qed.

Lemma merge_color_default_r (x : color) :
  (if color_eq x (Named "default") then Named "default" else x) = x.
Proof.
  destruct (color_eq x (Named "default")) eqn:Hx; [|reflexivity].
  symmetry. by apply color_eq_default.
Qed.

(** X16. [Ansi()] is neutral on both sides and merging a descriptor with itself
    changes nothing, except that the result always has [reset] set: so
    [a + a == a] holds exactly when [a.reset] does. *)
Theorem Ansi_add_neutral (a : Ansi) :
  let a' := mkAnsi (fore a) (back a) (bold a) (dim a) (italic a) (underline a)
                   (strikethrough a) (inverse a) true in
  Ansi.add Ansi_default a = a'
  /\ Ansi.add a Ansi_default = a'
  /\ Ansi.add a a = a'
  /\ Ansi.eq (Ansi.add a a) a = reset a.
Proof.
  destruct a as [f b bo di it un st inv re].
  unfold Ansi.add, Ansi.init, Ansi_default. simpl.
  rewrite !merge_color_default_r, !orb_false_r, !orb_diag.
  assert (forall x : color, (if color_eq x (Named "default") then x else x) = x) as Hid
    by (intros x; by destruct (color_eq x (Named "default"))).
  rewrite !Hid. repeat split.
  unfold Ansi.eq. simpl. rewrite !color_eq_refl, !eqb_reflx. simpl.
  by destruct re.
Qed.

(** X17. [Ansi.from_dict] puts the default of [__init__] in the place of each
    key the record lacks; the empty record gives [Ansi()]. *)
Theorem Ansi_from_dict_defaults (a : Ansi) :
  Ansi.from_dict ∅ = Ok Ansi_default
  /\ Ansi.from_dict (delete "fore" (Ansi.to_dict a)) = Ok (set_fore a (Named "default"))
  /\ Ansi.from_dict (delete "back" (Ansi.to_dict a)) = Ok (set_back a (Named "default"))
  /\ Ansi.from_dict (delete "bold" (Ansi.to_dict a)) = Ok (set_bold a false)
  /\ Ansi.from_dict (delete "dim" (Ansi.to_dict a)) = Ok (set_dim a false)
  /\ Ansi.from_dict (delete "italic" (Ansi.to_dict a)) = Ok (set_italic a false)
  /\ Ansi.from_dict (delete "underline" (Ansi.to_dict a)) = Ok (set_underline a false)
  /\ Ansi.from_dict (delete "strikethrough" (Ansi.to_dict a))
     = Ok (set_strikethrough a false)
  /\ Ansi.from_dict (delete "inverse" (Ansi.to_dict a)) = Ok (set_inverse a false)
  /\ Ansi.from_dict (delete "reset" (Ansi.to_dict a))
     = Ok (mkAnsi (fore a) (back a) (bold a) (dim a) (italic a) (underline a)
                  (strikethrough a) (inverse a) true).
Proof.
  destruct a as [f b bo di it un st inv re].
  split; [reflexivity|].
  repeat split;
    unfold Ansi.from_dict, Ansi.to_dict, dict_get; simpl;
    simplify_map_eq; rewrite ?color_val_roundtrip; reflexivity.
Qed.

(** X18. In the record of a descriptor a setter changes the key of its own name
    and no other. *)
Theorem setters_to_dict (a : Ansi) (c : color) (v : bool) :
  Ansi.to_dict (set_fore a c) = <["fore" := Ansi.color_to_val c]> (Ansi.to_dict a)
  /\ Ansi.to_dict (set_back a c) = <["back" := Ansi.color_to_val c]> (Ansi.to_dict a)
  /\ Ansi.to_dict (set_bold a v) = <["bold" := VBool v]> (Ansi.to_dict a)
  /\ Ansi.to_dict (set_dim a v) = <["dim" := VBool v]> (Ansi.to_dict a)
  /\ Ansi.to_dict (set_italic a v) = <["italic" := VBool v]> (Ansi.to_dict a)
  /\ Ansi.to_dict (set_underline a v) = <["underline" := VBool v]> (Ansi.to_dict a)
  /\ Ansi.to_dict (set_strikethrough a v)
     = <["strikethrough" := VBool v]> (Ansi.to_dict a)
  /\ Ansi.to_dict (set_inverse a v) = <["inverse" := VBool v]> (Ansi.to_dict a).
Proof.
  destruct a as [f b bo di it un st inv re].
  repeat split; unfold Ansi.to_dict; simpl;
    apply map_eq; intros k; rewrite !lookup_insert;
    repeat case_decide; try reflexivity; congruence.
Qed.

(** ** to_ansi *)

(** X19. [to_ansi] returns one descriptor for each colour, in order: the
    default descriptor with the colour as its foreground, for the target
    ["fore"], or as its background, for the target ["back"]; any other
    target raises [ValueError], and nothing else is raised. *)
Theorem to_ansi_descriptors (colors : list RGB) :
  to_ansi colors "fore" = Ok (map (fun c => set_fore Ansi_default (Rgb c)) colors)
  /\ to_ansi colors "back" = Ok (map (fun c => set_back Ansi_default (Rgb c)) colors)
  /\ (forall (target : string) (e : exn),
        to_ansi colors target = Err e
        <-> e = ValueError /\ target <> "fore" /\ target <> "back").
Proof.
  assert (forall (f : RGB -> Ansi) (acc : list Ansi),
            for_in colors (fun color result => Ok (result ++ [f color])) acc
            = Ok (acc ++ map f colors)) as Hloop.
  { intros f. induction colors as [|c colors IH]; intros acc; simpl.
    - by rewrite app_nil_r.
    - rewrite IH, <- app_assoc. reflexivity. }
  split; [|split].
  - unfold to_ansi. simpl. apply (Hloop (fun c => set_fore Ansi_default (Rgb c)) []).
  - unfold to_ansi. simpl. apply (Hloop (fun c => set_back Ansi_default (Rgb c)) []).
  - intros target e. unfold to_ansi.
    destruct (decide (target = "fore" \/ target = "back")) as [Ht|Ht].
    + rewrite bool_decide_eq_true_2
        by (destruct Ht as [->| ->];
            [apply list_elem_of_here | apply list_elem_of_further, list_elem_of_here]).
      cbn [negb]. split; [|intros (_ & Hf & Hb); by destruct Ht].
      intros He. exfalso.
      destruct (String.eqb target "fore").
      * by rewrite (Hloop (fun c => Ansi.init (Some (Rgb c)) None None None None
                                      None None None None) []) in He.
      * by rewrite (Hloop (fun c => Ansi.init None (Some (Rgb c)) None None None
                                      None None None None) []) in He.
    + rewrite bool_decide_eq_false_2
        by (intros [?|[?|H%elem_of_nil]%elem_of_cons]%elem_of_cons; tauto).
      cbn [negb]. split; [intros [= <-]|by intros [-> _]].
      split; [done|]. split; intros ->; apply Ht; [by left | by right].
Qed.

(** ** remove_ansi *)

Lemma remove_ansi_match (c : ascii) (s rest : string) :
  match_at (String c s) = Some rest -> remove_ansi (String c s) = remove_ansi rest.
Proof.
  intros H. rewrite remove_ansi_equation_2.
  destruct (inspect (match_at (String c s))) as [[r|] Hr]; simpl; congruence.
Qed.

Lemma remove_ansi_nomatch (c : ascii) (s : string) :
  match_at (String c s) = None -> remove_ansi (String c s) = String c (remove_ansi s).
Proof.
  intros H. rewrite remove_ansi_equation_2.
  destruct (inspect (match_at (String c s))) as [[r|] Hr]; simpl; congruence.
Qed.

Lemma match_at_not_esc (c : ascii) (s : string) :
  Ascii.eqb c ESC = false -> match_at (String c s) = None.
Proof. intros Hc. destruct s as [|b s]; simpl; [done|]. by rewrite Hc. Qed.

Lemma string_app_cons (c : ascii) (t s : string) :
  String c t +:+ s = String c (t +:+ s).
Proof. reflexivity. Qed.

Lemma string_app_nil_l (s : string) : EmptyString +:+ s = s.
Proof. reflexivity. Qed.

(** Text in front that holds no escape character is kept as it is. *)
Lemma remove_ansi_text (t s : string) :
  no_esc t = true -> remove_ansi (t +:+ s) = t +:+ remove_ansi s.
Proof.
  induction t as [|c t IH]; cbn [no_esc]; [done|].
  intros [Hc Ht]%andb_prop. apply negb_true_iff in Hc.
  rewrite !string_app_cons.
  rewrite remove_ansi_nomatch by (by apply match_at_not_esc). by rewrite IH.
Qed.

Lemma string_app_nil_r (s : string) : s +:+ EmptyString = s.
Proof. induction s as [|c s IH]; [done | by rewrite string_app_cons, IH]. Qed.

Lemma string_app_assoc (a b c : string) : (a +:+ b) +:+ c = a +:+ (b +:+ c).
Proof. induction a as [|x a IH]; [done | by rewrite !string_app_cons, IH]. Qed.

(** X20. A string that holds no escape character is returned as it is. *)
Theorem remove_ansi_plain_text (t : string) :
  no_esc t = true -> remove_ansi t = t.
Proof.
  intros Ht. rewrite <- (string_app_nil_r t) at 1.
  by rewrite remove_ansi_text, string_app_nil_r.
Qed.

Lemma remove_ansi_plain_text_witness : remove_ansi "Hello World!" = "Hello World!".
Proof. apply (remove_ansi_plain_text "Hello World!"). reflexivity. Defined.

Lemma scan_params_body (seen : bool) (body rest : string) :
  all_params body = true ->
  scan_params seen (body +:+ String "m" rest)
  = if seen || negb (String.eqb body EmptyString) then Some rest else None.
Proof.
  revert seen. induction body as [|c body IH]; intros seen.
  - intros _. rewrite string_app_nil_l. cbn [scan_params].
    change (is_param "m") with false. cbn [String.eqb negb].
    rewrite orb_false_r. by destruct seen.
  - intros [Hc Hb]%andb_prop. rewrite string_app_cons. cbn [scan_params String.eqb].
    rewrite Hc, IH by done. cbn [orb negb]. by rewrite orb_true_r.
Qed.

Lemma remove_ansi_escape (body rest : string) :
  all_params body = true -> body <> EmptyString ->
  remove_ansi (String ESC (String "[" (body +:+ String "m" rest))) = remove_ansi rest.
Proof.
  intros Hb Hne. apply remove_ansi_match. cbn [match_at].
  change (Ascii.eqb ESC ESC && Ascii.eqb "[" "[") with true. cbn match.
  rewrite scan_params_body by done.
  destruct (String.eqb_spec body EmptyString); [done|reflexivity].
Qed.

(** X21. Text without an escape character is kept, and an escape sequence
    [\033[ ... m] with one or more digits and semicolons between is
    deleted. *)
Theorem remove_ansi_sequence (t body rest : string) :
  no_esc t = true -> all_params body = true -> body <> EmptyString ->
  remove_ansi (t +:+ String ESC (String "[" (body +:+ String "m" rest)))
  = t +:+ remove_ansi rest.
Proof.
  intros Ht Hb Hne. by rewrite remove_ansi_text, remove_ansi_escape.
Qed.

Lemma remove_ansi_sequence_witness :
  remove_ansi ("a" +:+ String ESC (String "[" ("0;1" +:+ String "m" "bold")))
  = "a" +:+ remove_ansi "bold".
Proof.
  apply (remove_ansi_sequence "a" "0;1" "bold"); [reflexivity | reflexivity | discriminate].
Defined.

(** X22. [remove_ansi] only deletes: what it returns is what remains of the
    input when some characters are left out, so it is never longer. *)
Theorem remove_ansi_sublist (s : string) :
  sublist (String.list_ascii_of_string (remove_ansi s)) (String.list_ascii_of_string s)
  /\ (String.length (remove_ansi s) <= String.length s)%nat.
Proof.
  assert (forall n s, (String.length s < n)%nat ->
            sublist (String.list_ascii_of_string (remove_ansi s)) (String.list_ascii_of_string s))
    as Hsub.
  { clear s. induction n as [|n IH]; intros s Hn; [lia|].
    destruct s as [|c s]; [rewrite remove_ansi_equation_1; constructor|].
    destruct (match_at (String c s)) as [rest|] eqn:Hm.
    - rewrite (remove_ansi_match _ _ _ Hm).
      assert (exists pre, s = pre +:+ rest) as [pre ->].
      { assert (forall seen t, scan_params seen t = Some rest ->
                   exists pre, t = pre +:+ rest) as Hscan.
        { intros seen t. revert seen.
          induction t as [|a t IHt]; intros seen; cbn [scan_params]; [discriminate|].
          destruct (is_param a).
          - intros [pre ->]%IHt. by exists (String a pre).
          - destruct (seen && Ascii.eqb a "m"); [|discriminate].
            intros [= ->]. by exists (String a EmptyString). }
        destruct s as [|b s]; cbn [match_at] in Hm; [discriminate|].
        destruct (Ascii.eqb c ESC && Ascii.eqb b "["); [|discriminate].
        apply Hscan in Hm as [pre ->]. by exists (String b pre). }
      assert (String.length rest < n)%nat as Hlen.
      { cbn [String.length] in Hn. rewrite string_app_length in Hn. lia. }
      etrans; [apply (IH rest Hlen)|].
      rewrite <- string_app_cons. generalize (String c pre). clear.
      intros pre. induction pre as [|x pre IHp]; [done|].
      rewrite string_app_cons. cbn [String.list_ascii_of_string].
      by apply sublist_cons.
    - rewrite (remove_ansi_nomatch _ _ Hm). cbn [String.list_ascii_of_string].
      apply sublist_skip, IH. cbn [String.length] in Hn. lia. }
  split; [apply (Hsub (S (String.length s))); lia|].
  pose proof (sublist_length _ _ (Hsub (S (String.length s)) s ltac:(lia))) as Hl.
  assert (forall t, length (String.list_ascii_of_string t) = String.length t) as Hlen
    by (intros t; induction t as [|c t IHt]; simpl; [done | by rewrite IHt]).
  by rewrite !Hlen in Hl.
Qed.

(** X23. One pass is not always enough: deleting a sequence can bring the
    pieces of another one together, and the result then still holds an
    escape sequence that a second pass deletes. *)
Theorem remove_ansi_not_idempotent (body1 body2 rest : string) :
  all_params body1 = true -> body1 <> EmptyString ->
  all_params body2 = true -> body2 <> EmptyString ->
  remove_ansi (String ESC (String "["
                 (String ESC (String "[" (body1 +:+ String "m" (body2 +:+ String "m" rest))))))
  = String ESC (String "[" (body2 +:+ String "m" (remove_ansi rest)))
  /\ remove_ansi (String ESC (String "[" (body2 +:+ String "m" (remove_ansi rest))))
     = remove_ansi (remove_ansi rest).
Proof.
  intros H1 N1 H2 N2. split; [|by apply remove_ansi_escape].
  rewrite remove_ansi_nomatch by reflexivity.
  rewrite remove_ansi_nomatch by reflexivity.
  rewrite remove_ansi_escape by done.
  assert (forall b r, all_params b = true ->
            remove_ansi (b +:+ String "m" r) = b +:+ String "m" (remove_ansi r)) as Hkeep.
  { intros b r Hb. rewrite remove_ansi_text.
    - by rewrite remove_ansi_nomatch by (by apply match_at_not_esc).
    - clear -Hb. induction b as [|c b IH]; simpl in *; [done|].
      apply andb_prop in Hb as [Hc Hb]. rewrite IH by done.
      destruct (Ascii.eqb_spec c ESC) as [->|]; [discriminate Hc | done]. }
  by rewrite Hkeep.
Qed.

Lemma remove_ansi_not_idempotent_witness :
  remove_ansi (String ESC (String "["
                 (String ESC (String "[" ("0" +:+ String "m" ("1" +:+ String "m" "x"))))))
  = String ESC (String "[" ("1" +:+ String "m" (remove_ansi "x")))
  /\ remove_ansi (String ESC (String "[" ("1" +:+ String "m" (remove_ansi "x"))))
     = remove_ansi (remove_ansi "x").
Proof.
  apply (remove_ansi_not_idempotent "0" "1" "x"); (reflexivity || discriminate).
Defined.

(** ** Ansi: the escape sequences *)

Lemma all_params_app (a b : string) :
  all_params (a +:+ b) = all_params a && all_params b.
Proof.
  induction a as [|c a IH]; [done|].
  rewrite string_app_cons. cbn [all_params]. by rewrite IH, andb_assoc.
Qed.

Lemma no_esc_app (a b : string) : no_esc (a +:+ b) = no_esc a && no_esc b.
Proof.
  induction a as [|c a IH]; [done|].
  rewrite string_app_cons. cbn [no_esc]. by rewrite IH, andb_assoc.
Qed.

Lemma all_params_uint (u : Decimal.uint) :
  all_params (DecimalString.NilEmpty.string_of_uint u) = true.
Proof. induction u; cbn [DecimalString.NilEmpty.string_of_uint all_params]; by rewrite ?IHu. Qed.

(** The decimal digits of an integer that is not negative. *)
Lemma int_str_params (z : Z) :
  0 <= z -> all_params (int_str z) = true /\ int_str z <> EmptyString.
Proof.
  intros Hz. unfold int_str. destruct z as [|p|p]; [by split | | lia].
  cbn [Z.to_int DecimalString.NilZero.string_of_int].
  unfold DecimalString.NilZero.string_of_uint.
  destruct (Pos.to_uint p) eqn:E; (split; [|discriminate]);
    first [reflexivity | apply all_params_uint].
Qed.

Lemma ansi_codes_range (name : string) (code : Z) :
  _ansi_codes !! name = Some code -> 30 <= code <= 97.
Proof.
  intros H. apply elem_of_list_to_map_2 in H.
  repeat (apply elem_of_cons in H as [[= -> ->]|H]; [lia|]).
  by apply elem_of_nil in H.
Qed.

Lemma remove_ansi_escape_eq (s body rest : string) :
  s = String ESC (String "[" (body +:+ String "m" rest)) ->
  all_params body = true -> body <> EmptyString ->
  remove_ansi s = remove_ansi rest.
Proof. intros -> Hb Hne. by apply remove_ansi_escape. Qed.

Lemma string_app_nonempty (c : ascii) (a b : string) : String c a +:+ b <> EmptyString.
Proof. discriminate. Qed.

Section text_properties.

Variable float_repr : Q -> string.

(** The escape sequence of a colour: [f] is what is done to the code of
    a name and [pre] is the head of the sequence of an [RGB]. *)
Lemma color_escape (f : Z -> Z) (pre : string) (c : color) :
  (forall code, 30 <= code <= 97 -> 0 <= f code) ->
  all_params pre = true ->
  plain c ->
  exists s : string,
    match c with
    | Named name =>
        code ← dict_item _ansi_codes name;
        Ok (String ESC "[" +:+ int_str (f code) +:+ "m")
    | Rgb c =>
        Ok (String ESC (String "[" pre) +:+ num_str float_repr (red c) +:+ ";"
            +:+ num_str float_repr (green c) +:+ ";"
            +:+ num_str float_repr (blue c) +:+ "m")
    end = Ok s
    /\ forall rest, remove_ansi (s +:+ rest) = remove_ansi rest.
Proof.
  intros Hf Hpre Hc. destruct c as [name|c]; cbn [plain] in Hc.
  - destruct Hc as [code Hcode]. unfold dict_item. rewrite Hcode. bind_step.
    eexists. split; [reflexivity|]. intros rest.
    destruct (int_str_params (f code)) as [Hp Hne];
      [by eapply Hf, ansi_codes_range|].
    apply (remove_ansi_escape_eq _ (int_str (f code))); [|done..].
    by rewrite !string_app_assoc.
  - destruct Hc as (r & g & b & -> & Hr & Hg & Hb). cbn [rgb red green blue num_str].
    eexists. split; [reflexivity|]. intros rest.
    destruct (int_str_params r Hr) as [Pr _], (int_str_params g Hg) as [Pg _],
      (int_str_params b Hb) as [Pb _].
    apply (remove_ansi_escape_eq _
             (pre +:+ int_str r +:+ ";" +:+ int_str g +:+ ";" +:+ int_str b)).
    + rewrite !string_app_assoc. reflexivity.
    + rewrite !all_params_app, Hpre, Pr, Pg, Pb. reflexivity.
    + destruct pre as [|x pre]; [|discriminate].
      rewrite string_app_nil_l. destruct (int_str r) eqn:E; [|discriminate].
      by destruct (int_str_params r Hr).
Qed.

(** X24. [Ansi.string] raises [KeyError] when a colour is a name that
    [_ansi_codes] does not hold, and nothing else can go wrong. *)
Theorem Ansi_string_fails_iff (self : Ansi) (e : exn) :
  Ansi_string float_repr self = Err e
  <-> e = KeyError /\ ~ (known (fore self) /\ known (back self)).
Proof.
  unfold Ansi_string, dict_item.
  destruct (fore self) as [fname|fc], (back self) as [bname|bc]; cbn [known];
    try destruct (_ansi_codes !! fname) as [fcode|] eqn:Ef;
    try destruct (_ansi_codes !! bname) as [bcode|] eqn:Eb;
    bind_step.
  all: first
    [ split; [discriminate|]; intros [_ Hn]; exfalso; apply Hn;
      split; first [exact I | by eexists]
    | split; [|by intros [-> _]]; intros [= <-]; split; [reflexivity|];
      intros [Hf Hb];
      first [by apply is_Some_None in Hf | by apply is_Some_None in Hb] ].
Qed.

Lemma Ansi_string_escapes (self : Ansi) (rest : string) :
  plain (fore self) -> plain (back self) ->
  exists s : string,
    Ansi_string float_repr self = Ok s
    /\ remove_ansi (s +:+ rest) = remove_ansi rest.
Proof.
  intros Hfore Hback. unfold Ansi_string.
  destruct (color_escape (fun code => code) "38;2;" (fore self)) as (fg & -> & Hfg);
    [intros; lia | reflexivity | done |].
  destruct (color_escape (fun code => code + 10) "48;2;" (back self)) as (bg & -> & Hbg);
    [intros; lia | reflexivity | done |].
  bind_step. cbv zeta. eexists. split; [reflexivity|].
  rewrite !string_app_assoc. rewrite <- (Hbg rest), <- (Hfg (bg +:+ rest)).
  generalize (fg +:+ bg +:+ rest). intros tail.
  apply (remove_ansi_escape_eq _
           ("0" +:+ (if bold self then ";1" else EmptyString)
                +:+ (if italic self then ";3" else EmptyString)
                +:+ (if underline self then ";4" else EmptyString)
                +:+ (if strikethrough self then ";9" else EmptyString)
                +:+ (if dim self then ";2" else EmptyString)
                +:+ (if inverse self then ";7" else EmptyString)));
    [|by destruct (bold self), (dim self), (italic self), (underline self),
           (strikethrough self), (inverse self)..].
  destruct (bold self), (dim self), (italic self), (underline self),
    (strikethrough self), (inverse self); reflexivity.
Qed.

(** X25. On a descriptor with plain colours [Ansi.string] returns escape
    sequences only: [remove_ansi] deletes all of it, alone and in front of
    any text. *)
Theorem Ansi_string_removed (self : Ansi) :
  plain (fore self) -> plain (back self) ->
  exists s : string,
    Ansi_string float_repr self = Ok s
    /\ remove_ansi s = EmptyString
    /\ forall rest, remove_ansi (s +:+ rest) = remove_ansi rest.
Proof.
  intros Hfore Hback.
  destruct (Ansi_string_escapes self EmptyString Hfore Hback) as (s & Hs & Hr).
  exists s. split; [done|]. split.
  - rewrite string_app_nil_r in Hr. by rewrite Hr, remove_ansi_equation_1.
  - intros rest. destruct (Ansi_string_escapes self rest Hfore Hback) as (s' & Hs' & Hr').
    congruence.
Qed.

Lemma no_esc_concat (sep : string) (texts : list string) :
  no_esc sep = true -> Forall (fun t => no_esc t = true) texts ->
  no_esc (String.concat sep texts) = true.
Proof.
  intros Hsep. induction 1 as [|t texts Ht Hts IH]; [done|].
  cbn [String.concat]. destruct texts as [|t' texts]; [done|].
  change (no_esc (t +:+ sep +:+ String.concat sep (t' :: texts)) = true).
  by rewrite !no_esc_app, Ht, Hsep, IH.
Qed.

(** X26. Text that is styled with [+] or by calling the descriptor, and then
    passed to [remove_ansi], is the text again, when the colours are plain
    and the text holds no escape character. *)
Theorem Ansi_styled_text_removed (self : Ansi) (text sep : string) (texts : list string) :
  plain (fore self) -> plain (back self) ->
  no_esc text = true -> no_esc sep = true ->
  Forall (fun t => no_esc t = true) texts ->
  (exists out, Ansi_plus float_repr self (OStr text) = Ok (OStr out)
               /\ remove_ansi out = text)
  /\ (exists out, Ansi_radd float_repr self (OStr text) = Ok out
                  /\ remove_ansi out = text)
  /\ (exists out, Ansi_call float_repr self (OStr <$> texts) sep = Ok out
                  /\ remove_ansi out = String.concat sep texts).
Proof.
  intros Hfore Hback Htext Hsep Htexts.
  assert (forall rest, remove_ansi (reset_all +:+ rest) = remove_ansi rest) as Hreset.
  { intros rest. by apply (remove_ansi_escape_eq _ "39;49;0"). }
  assert (remove_ansi EmptyString = EmptyString) as Hnil by apply remove_ansi_equation_1.
  split; [|split].
  - destruct (Ansi_string_escapes self
                (text +:+ (if reset self then reset_all else EmptyString))) as (s & Hs & Hr);
      [done..|].
    cbn [Ansi_plus]. rewrite Hs. bind_step. eexists. split; [reflexivity|].
    rewrite Hreset, Hr, remove_ansi_text by done.
    destruct (reset self).
    + rewrite <- (string_app_nil_r reset_all), Hreset, Hnil. apply string_app_nil_r.
    + rewrite Hnil. apply string_app_nil_r.
  - destruct (Ansi_string_escapes self EmptyString) as (s & Hs & Hr); [done..|].
    cbn [Ansi_radd]. rewrite Hs. bind_step. eexists. split; [reflexivity|].
    rewrite remove_ansi_text, Hreset by done.
    rewrite <- (string_app_nil_r s), Hr, Hnil. apply string_app_nil_r.
  - destruct (Ansi_string_escapes self
                (String.concat sep texts +:+ reset_all)) as (s & Hs & Hr); [done..|].
    unfold Ansi_call.
    rewrite (traverse_ok _ (fun v => match v with OStr t => t | _ => EmptyString end))
      by (by intros x [t [-> _]]%list_elem_of_fmap).
    bind_step. rewrite Hs. bind_step. eexists. split; [reflexivity|].
    replace (map (fun v => match v with OStr t => t | _ => EmptyString end) (OStr <$> texts))
      with texts by (by rewrite map_map, map_id).
    rewrite Hr, remove_ansi_text by (by apply no_esc_concat).
    rewrite <- (string_app_nil_r reset_all), Hreset, Hnil. apply string_app_nil_r.
Qed.

(** X27. [+] with anything but text or a descriptor raises [TypeError], on
    either side; with text it fails as [Ansi.string] does; with a
    descriptor it does not fail. *)
Theorem Ansi_plus_fails_iff (self : Ansi) (other : pyobj) (e : exn) :
  (Ansi_plus float_repr self other = Err e
   <-> match other with
       | OStr _ => Ansi_string float_repr self = Err e
       | OAnsi _ => False
       | _ => e = TypeError
       end)
  /\ (Ansi_radd float_repr self other = Err e
      <-> match other with
          | OStr _ => Ansi_string float_repr self = Err e
          | _ => e = TypeError
          end).
Proof.
  destruct other; cbn [Ansi_plus Ansi_radd];
    try destruct (Ansi_string float_repr self); bind_step;
    (split; split; first [discriminate | done | congruence
                          | by intros [= ->] | by intros ->]).
Qed.

End text_properties.

Lemma Ansi_string_removed_witness :
  exists s : string,
    Ansi_string (fun _ => EmptyString)
      (set_bold (set_fore Ansi_default (Rgb (rgb 255 0 0))) true) = Ok s
    /\ remove_ansi s = EmptyString
    /\ forall rest, remove_ansi (s +:+ rest) = remove_ansi rest.
Proof.
  apply (Ansi_string_removed (fun _ => EmptyString)
           (set_bold (set_fore Ansi_default (Rgb (rgb 255 0 0))) true)).
  - exists 255, 0, 0. repeat split; lia.
  - by exists 39.
Defined.

Lemma Ansi_styled_text_removed_witness :
  (exists out, Ansi_plus (fun _ => EmptyString) (set_fore Ansi_default (Named "red"))
                 (OStr "hi") = Ok (OStr out)
               /\ remove_ansi out = "hi")
  /\ (exists out, Ansi_radd (fun _ => EmptyString) (set_fore Ansi_default (Named "red"))
                    (OStr "hi") = Ok out
                  /\ remove_ansi out = "hi")
  /\ (exists out, Ansi_call (fun _ => EmptyString) (set_fore Ansi_default (Named "red"))
                    (OStr <$> ["a"; "b"]) " " = Ok out
                  /\ remove_ansi out = String.concat " " ["a"; "b"]).
Proof.
  apply (Ansi_styled_text_removed (fun _ => EmptyString)
           (set_fore Ansi_default (Named "red")) "hi" " " ["a"; "b"]).
  - by exists 31.
  - by exists 39.
  - reflexivity.
  - reflexivity.
  - repeat constructor.
Defined.


(** ** adv_gradient: a length that is not the step count *)

Lemma adv_gradient_length_witness :
  2 * Z.abs (Z.of_nat (length (@nil RGB)) - 1) <= Z.of_nat (segments [(rgb 255 0 0, 50)]).
Proof.
  apply (adv_gradient_length [(rgb 255 0 0, 50)] 1 []).
  - repeat constructor; simpl; lia.
  - lia.
  - reflexivity.
Defined.
